(** * The 4x4 agent puzzle of [agent/main.cc]: boards, states, the move
    generator, the heuristic and the two searchers, with their properties.

    Conventions of the embedding.
    - A [Board] ([std::array<char, 16>]) is a list of characters; the
      theorems that need it assume the length 16 of the array type.
    - [size_t] has 64 bits and [unsigned] 32. [size_t] indices that the
      code keeps inside the grid are natural numbers; the one place where
      a [size_t] subtraction can wrap ([calc_score]) is written over [Z]
      with the reduction modulo [2^64] spelled out.
    - [std::hash<std::string>] is fixed by the platform, not by the program:
      [make_hash] is a variable of the sections below.
    - [std::priority_queue] is likewise an interface ([PriorityQueue]); the
      order in which it returns entries of equal score is left open.
    - Reading [state[k]] outside the array, reading a literal past its end,
      [assert(false)] and a conversion to [unsigned] of a value that does
      not fit are modelled by the outcome [Fault]: the language defines no
      result for them.
    - [calc_score] is a function with the outcome [Fault] where its
      addition has no defined result. A search does not stop there, a
      number is handed to the queue all the same; that number is a
      parameter of the searchers (the class [Build]), and what is proved
      of [aStar] holds for every build.
    - Memory is not bounded: [new], [push_front] and [push] always
      succeed. A run of the program on which an allocation fails
      ([std::bad_alloc], which ends the program) agrees with the model up
      to that allocation; a result of a search after [n] rounds is the
      result of the program when it has the memory to get there.
    - The two functions of [STLPlayground.cpp] that track the N smallest
      numbers of a stream are modelled in the module [NSmallest], over any
      type of values with a comparison. *)

From Stdlib Require Import ZArith Ascii String Lia.
From stdpp Require Import base list sorting.

Local Open Scope Z_scope.

(** ** Data model *)

Module Move.
Inductive type_t := LEFT | UP | RIGHT | DOWN | UNKNOWN.
End Move.

(** [typedef std::array<char, 16> Board]. *)
Abbreviation Board := (list ascii) (only parsing).

(** The agent character ['*'] (code 42). *)
Definition agent : ascii := "*"%char.

(** [state_] together with the cached [hash_] and, for a successor, the
    owning reference [parent_]; one constructor per C++ constructor. *)
Inductive PuzzleState :=
| Root (hash_ : Z) (state_ : Board)
| Child (hash_ : Z) (state_ : Board) (parent_ : PuzzleState).

Definition getState (s : PuzzleState) : Board :=
  match s with Root _ b => b | Child _ b _ => b end.

Definition getHash (s : PuzzleState) : Z :=
  match s with Root h _ => h | Child h _ _ => h end.

Definition getParent (s : PuzzleState) : option PuzzleState :=
  match s with Root _ _ => None | Child _ _ p => Some p end.

(** What a call can come to besides returning: an out-of-range [operator[]],
    a failed [assert], a conversion without a defined result. *)
Inductive outcome (A : Type) :=
| Fault
| Done (a : A).
Arguments Fault {A}.
Arguments Done {A} a.

(** [std::find(b.begin(), b.end(), c) - b.begin()]: the first position of
    [c], or the length of [b] when it does not occur. *)
Fixpoint find_index (c : ascii) (b : Board) : nat :=
  match b with
  | [] => 0%nat
  | x :: b' => if Ascii.eqb x c then 0%nat else S (find_index c b')
  end.

(** [std::swap(state[i], state[j])]. *)
Definition swap_cells (state : Board) (i j : nat) : outcome Board :=
  match state !! i, state !! j with
  | Some ci, Some cj => Done (<[j:=ci]> (<[i:=cj]> state))
  | _, _ => Fault
  end.

(** The [switch] of [make_next_state]: the new flat index [y * 4 + x], or
    [None] for a move that would leave the grid. *)
Definition new_index (index : nat) (move : Move.type_t) : outcome (option nat) :=
  let x := (index mod 4)%nat in
  let y := (index / 4)%nat in
  match move with
  | Move.LEFT =>
      if (x =? 0)%nat then Done None else Done (Some (y * 4 + (x - 1))%nat)
  | Move.RIGHT =>
      if (x =? 3)%nat then Done None else Done (Some (y * 4 + (x + 1))%nat)
  | Move.UP =>
      if (y =? 0)%nat then Done None else Done (Some ((y - 1) * 4 + x)%nat)
  | Move.DOWN =>
      if (y =? 3)%nat then Done None else Done (Some ((y + 1) * 4 + x)%nat)
  | Move.UNKNOWN => Fault
  end.

(** Lines 136-171 of [make_next_state]: the copied board after the swap. *)
Definition next_board (state : Board) (move : Move.type_t) : outcome (option Board) :=
  let index := find_index agent state in
  match new_index index move with
  | Fault => Fault
  | Done None => Done None
  | Done (Some newIndex) =>
      match swap_cells state index newIndex with
      | Fault => Fault
      | Done state' => Done (Some state')
      end
  end.

(** The [do ... while] of [make_next_state]: is [hash] the cached hash of
    [ansector] or of a state further up its chain? *)
Fixpoint hash_on_chain (hash : Z) (ansector : PuzzleState) : bool :=
  (hash =? getHash ansector) ||
  match ansector with
  | Root _ _ => false
  | Child _ _ p => hash_on_chain hash p
  end.

(** Number of predecessor links from a state back to the root. *)
Fixpoint depth (s : PuzzleState) : nat :=
  match s with
  | Root _ _ => 0%nat
  | Child _ _ p => S (depth p)
  end.

(** The proper ancestors of a state, nearest first. *)
Fixpoint ancestors (s : PuzzleState) : list PuzzleState :=
  match s with
  | Root _ _ => []
  | Child _ _ p => p :: ancestors p
  end.

(** The loop of [print_search]: the states from [finish] back to the root,
    then read in reverse. *)
Definition solution (finish : PuzzleState) : list PuzzleState :=
  finish :: ancestors finish.

Definition reconstruct (finish : option PuzzleState) : list Board :=
  match finish with
  | Some s => rev (map getState (solution s))
  | None => []
  end.

(** ** The heuristic *)

(** [indexP - i] on two [size_t]. *)
Definition size_t_sub (a b : Z) : Z := (a - b) mod 2 ^ 64.

(** [ret += std::abs(d)] for a [size_t] value [d] and the [unsigned]
    accumulator [ret]. [std::abs] is declared for the signed integer types
    and for the floating-point types, not for [size_t]: a wrapped
    difference stays the large positive number it is. Where the call is
    accepted at all (libstdc++ before GCC 7 takes an integer argument
    through [double]; later versions reject it as ambiguous), the sum is
    formed in [double] and converted back to [unsigned], a conversion with
    a defined result only for a sum below [2^32]. *)
Definition add_abs (ret d : Z) : outcome Z :=
  if ret + d <? 2 ^ 32 then Done (ret + d) else Fault.

(** [state[i] == c]. *)
Definition cell_is (state : Board) (i : nat) (c : ascii) : bool :=
  match state !! i with
  | Some x => Ascii.eqb x c
  | None => false
  end.

(** One round of the loop of [calc_score], for the goal cell [c] at index
    [i]. The argument handed to [std::abs] is the [size_t] difference. *)
Definition score_round (state : Board) (i : nat) (c : ascii) (ret : Z)
  : outcome Z :=
  if cell_is state i c then Done ret
  else
    let indexP := find_index c state in
    add_abs ret (size_t_sub (Z.of_nat indexP) (Z.of_nat i)).

Fixpoint calc_score_loop (state : Board) (i : nat) (goal : list ascii) (ret : Z)
  : outcome Z :=
  match goal with
  | [] => Done ret
  | c :: goal' =>
      match score_round state i c ret with
      | Fault => Fault
      | Done ret' => calc_score_loop state (S i) goal' ret'
      end
  end.

Definition calc_score (puzzle : PuzzleState) (goal : Board) : outcome Z :=
  calc_score_loop (getState puzzle) 0 goal 0.

(** ** The move generator and the searchers *)

(** The values [static_cast<Move::type_t>(m)] of the loops [m = 0 .. 3]. *)
Definition moves : list Move.type_t :=
  [Move.LEFT; Move.UP; Move.RIGHT; Move.DOWN].

(** How a search ends. [Undefined]: [make_next_state] read outside the
    board or met the failed assertion, or [do_searh] read past the end of
    a literal. [Unfinished] is the model's own:
    the loop was cut after the given number of rounds, as it is for a run
    that is stopped or runs out of memory. *)
Inductive verdict :=
| Unfinished
| Undefined
| NoSolution
| Solution (s : PuzzleState).

Definition PuzzleAndScore := (PuzzleState * Z)%type.

(** The operations of [std::priority_queue<PuzzleAndScore, ..., Comp>] that
    [aStar] calls; [pq_pop] is [top] followed by [pop], [None] on an empty
    queue. *)
Class PriorityQueue := {
  pq : Type;
  pq_empty : pq;
  pq_push : PuzzleAndScore -> pq -> pq;
  pq_pop : pq -> option (PuzzleAndScore * pq);
}.

(** What the library promises of it: it holds the entries pushed and not
    yet popped, and [Comp] lets no entry of smaller score stay behind the
    one returned. *)
Class PriorityQueueSpec (Q : PriorityQueue) := {
  pq_elems : pq -> list PuzzleAndScore;
  pq_elems_empty : pq_elems pq_empty = [];
  pq_elems_push : forall x q, pq_elems (pq_push x q) ≡ₚ x :: pq_elems q;
  pq_pop_None : forall q, pq_pop q = None -> pq_elems q = [];
  pq_pop_Some : forall q x q',
    pq_pop q = Some (x, q') -> pq_elems q ≡ₚ x :: pq_elems q';
  pq_pop_least : forall q x q',
    pq_pop q = Some (x, q') -> Forall (fun y => x.2 <= y.2) (pq_elems q');
}.

(** [calc_score] is compiled code like the rest: where it has no defined
    result a run still hands some number to the queue. That number belongs
    to the build, not to the program. *)
Class Build := stray_score : PuzzleState -> Board -> Z.

Section Searchers.

Variable make_hash : Board -> Z.

(** [new PuzzleState(start)] and [new PuzzleState(parent, state)]. *)
Definition new_root (state : Board) : PuzzleState :=
  Root (make_hash state) state.

Definition new_child (parent : PuzzleState) (state : Board) : PuzzleState :=
  Child (make_hash state) state parent.

(** Lines 174-182: the walk that starts at [parent->getParent()]. *)
Definition cyclic (parent : PuzzleState) (hash : Z) : bool :=
  match getParent parent with
  | Some ansector => hash_on_chain hash ansector
  | None => false
  end.

Definition make_next_state (parent : PuzzleState) (move : Move.type_t)
  : outcome (option PuzzleState) :=
  match next_board (getState parent) move with
  | Fault => Fault
  | Done None => Done None
  | Done (Some state) =>
      let hash := make_hash state in
      if cyclic parent hash then Done None
      else Done (Some (new_child parent state))
  end.

(** The [for] loop of [breadthFirst] over the moves still to try:
    [inl next] when it returns from inside the loop, [inr search] when it
    runs to its end. The deque has its front at the head of the list. *)
Fixpoint bfs_expand (goalHash : Z) (parent : PuzzleState)
    (ms : list Move.type_t) (search : list PuzzleState)
  : outcome (PuzzleState + list PuzzleState) :=
  match ms with
  | [] => Done (inr search)
  | m :: ms' =>
      match make_next_state parent m with
      | Fault => Fault
      | Done None => bfs_expand goalHash parent ms' search
      | Done (Some next) =>
          if getHash next =? goalHash then Done (inl next)
          else bfs_expand goalHash parent ms' (next :: search)
      end
  end.

(** One round of the [while] loop: [search.back()], [search.pop_back()],
    then the [for] loop. *)
Definition bfs_round (goalHash : Z) (search : list PuzzleState)
  : verdict + list PuzzleState :=
  match last search with
  | None => inl NoSolution
  | Some parent =>
      match bfs_expand goalHash parent moves (removelast search) with
      | Fault => inl Undefined
      | Done (inl next) => inl (Solution next)
      | Done (inr search') => inr search'
      end
  end.

Fixpoint bfs_loop (fuel : nat) (goalHash : Z) (search : list PuzzleState)
  : verdict :=
  match fuel with
  | O => Unfinished
  | S fuel' =>
      match bfs_round goalHash search with
      | inl v => v
      | inr search' => bfs_loop fuel' goalHash search'
      end
  end.

Definition breadthFirst (fuel : nat) (start goal : Board) : verdict :=
  let goalHash := make_hash goal in
  let startState := new_root start in
  if getHash startState =? goalHash then Solution startState
  else bfs_loop fuel goalHash [startState].

(** The deque after [n] completed rounds, when the search is still
    running then. *)
Fixpoint bfs_frontier (n : nat) (goalHash : Z) (search : list PuzzleState)
  : option (list PuzzleState) :=
  match n with
  | O => Some search
  | S n' =>
      match bfs_round goalHash search with
      | inl _ => None
      | inr search' => bfs_frontier n' goalHash search'
      end
  end.

Context {Q : PriorityQueue} {B : Build}.

(** [std::make_pair(puzzle, calc_score(puzzle, goal))]. *)
Definition with_score (puzzle : PuzzleState) (goal : Board) : PuzzleAndScore :=
  (puzzle, match calc_score puzzle goal with
           | Done ret => ret
           | Fault => stray_score puzzle goal
           end).

Fixpoint astar_expand (goal : Board) (goalHash : Z) (best : PuzzleState)
    (ms : list Move.type_t) (search : pq)
  : outcome (PuzzleState + pq) :=
  match ms with
  | [] => Done (inr search)
  | m :: ms' =>
      match make_next_state best m with
      | Fault => Fault
      | Done None => astar_expand goal goalHash best ms' search
      | Done (Some next) =>
          if getHash next =? goalHash then Done (inl next)
          else astar_expand goal goalHash best ms'
                 (pq_push (with_score next goal) search)
      end
  end.

Definition astar_round (goal : Board) (goalHash : Z) (search : pq)
  : verdict + pq :=
  match pq_pop search with
  | None => inl NoSolution
  | Some (best, rest) =>
      match astar_expand goal goalHash best.1 moves rest with
      | Fault => inl Undefined
      | Done (inl next) => inl (Solution next)
      | Done (inr search') => inr search'
      end
  end.

Fixpoint astar_loop (fuel : nat) (goal : Board) (goalHash : Z) (search : pq)
  : verdict :=
  match fuel with
  | O => Unfinished
  | S fuel' =>
      match astar_round goal goalHash search with
      | inl v => v
      | inr search' => astar_loop fuel' goal goalHash search'
      end
  end.

Definition aStar (fuel : nat) (start goal : Board) : verdict :=
  let goalHash := make_hash goal in
  let startState := new_root start in
  if getHash startState =? goalHash then Solution startState
  else astar_loop fuel goal goalHash
         (pq_push (with_score startState goal) pq_empty).

Fixpoint astar_frontier (n : nat) (goal : Board) (goalHash : Z) (search : pq)
  : option pq :=
  match n with
  | O => Some search
  | S n' =>
      match astar_round goal goalHash search with
      | inl _ => None
      | inr search' => astar_frontier n' goal goalHash search'
      end
  end.

End Searchers.

(** ** The driver: [operator<<], [do_searh] and [print_search] *)

(** [std::endl], as the line feed it writes. *)
Definition endl : string := String (ascii_of_nat 10) EmptyString.

(** The inner loop of [operator<<]: each cell followed by [", "]. *)
Fixpoint print_cells (cells : list ascii) : string :=
  match cells with
  | [] => EmptyString
  | c :: cells' => String c (String.append ", " (print_cells cells'))
  end.

(** The outer loop of [operator<<] over the rows still to print, [s]
    holding the cells from index [k] on. *)
Fixpoint print_rows (rows : nat) (s : Board) : string :=
  match rows with
  | O => EmptyString
  | S rows' =>
      String.append "|"
        (String.append (print_cells (take 4 s))
           (String.append "|"
              (String.append endl (print_rows rows' (drop 4 s)))))
  end.

(** What [std::cout << state] writes. *)
Definition print_state (s : Board) : string := print_rows 4 s.

(** [std::copy(s, s + 16, board.begin())] out of a string literal [s]: the
    array behind the pointer holds the characters of the literal and the
    terminating NUL. Sixteen characters are read: of a literal of fifteen
    characters the terminator becomes the last cell, and a shorter literal
    is read past the end of its array. *)
Definition copy_literal (s : list ascii) : outcome Board :=
  let array := (s ++ [Ascii.zero])%list in
  if (16 <=? length array)%nat then Done (take 16 array) else Fault.

(** [do_searh]: each literal is copied into a board, and [aStar] is run on
    the two boards. *)
Definition do_searh (make_hash : Board -> Z) {Q : PriorityQueue} {B : Build}
    (fuel : nat) (start goal : list ascii) : verdict :=
  match copy_literal start with
  | Fault => Undefined
  | Done startBoard =>
      match copy_literal goal with
      | Fault => Undefined
      | Done goalBoard => aStar make_hash fuel startBoard goalBoard
      end
  end.

(** What [print_search] writes. *)
Definition print_search (finish : option PuzzleState) : string :=
  match finish with
  | Some s =>
      String.append "Finish!"
        (String.append endl
           (String.concat ""
              (map (fun stage =>
                      String.append (print_state (getState stage)) endl)
                   (rev (solution s)))))
  | None => String.append "Failed" endl
  end.

(** ** Notions the properties are stated with *)

Definition board_size : nat := 16.

(** The invariant of a board: sixteen cells, exactly one of them the agent. *)
Definition valid_board (b : Board) : Prop :=
  length b = board_size /\ count_occ ascii_dec b agent = 1%nat.

(** The successors [make_next_state] returns for [parent] over the moves
    [ms], in the order of the moves. *)
Fixpoint children (make_hash : Board -> Z) (parent : PuzzleState)
    (ms : list Move.type_t) : list PuzzleState :=
  match ms with
  | [] => []
  | m :: ms' =>
      match make_next_state make_hash parent m with
      | Done (Some next) => next :: children make_hash parent ms'
      | _ => children make_hash parent ms'
      end
  end.

(** A deque whose entries lie on two consecutive depths, the deeper ones
    towards the front. *)
Definition two_levels (d : nat) (search : list PuzzleState) : Prop :=
  exists hi lo : list PuzzleState,
    search = (hi ++ lo)%list /\
    Forall (fun x => depth x = S d) hi /\ Forall (fun x => depth x = d) lo.

(** A single agent-swap move, and the boards [n] such moves lead to. *)
Definition one_move (b b' : Board) : Prop :=
  exists m, m ∈ moves /\ next_board b m = Done (Some b').

Inductive reach (start : Board) : nat -> Board -> Prop :=
| reach_O : reach start 0 start
| reach_S n b b' : reach start n b -> one_move b b' -> reach start (S n) b'.

Definition reachable (start goal : Board) : Prop :=
  exists n, reach start n goal.

(** [n] is the least number of moves that turn [start] into [goal]. *)
Definition min_moves (start goal : Board) (n : nat) : Prop :=
  reach start n goal /\ forall k, reach start k goal -> (n <= k)%nat.

(** The states either searcher can ever build from [start]: the root and,
    for each state and move, what [make_next_state] returns. *)
Inductive in_tree (make_hash : Board -> Z) (start : Board)
  : PuzzleState -> Prop :=
| in_tree_root : in_tree make_hash start (new_root make_hash start)
| in_tree_child parent m next :
    in_tree make_hash start parent ->
    m ∈ moves ->
    make_next_state make_hash parent m = Done (Some next) ->
    in_tree make_hash start next.

(** Every state of the tree with the goal's hash lies strictly below some
    entry of the deque. *)
Definition covered (make_hash : Board -> Z) (start : Board) (goalHash : Z)
    (search : list PuzzleState) : Prop :=
  forall g, in_tree make_hash start g -> getHash g = goalHash ->
            exists a, a ∈ search /\ a ∈ ancestors g.

(** What a round of the loop of [breadthFirst] keeps true of the deque. *)
Definition bfs_invariant (make_hash : Board -> Z) (start : Board)
    (goalHash : Z) (q : list PuzzleState) : Prop :=
  Forall (in_tree make_hash start) q /\ (exists d, two_levels d q) /\
  covered make_hash start goalHash q.

(** What a round of the loop of [aStar] keeps true of the queue. *)
Definition astar_invariant (make_hash : Board -> Z) {Q : PriorityQueue}
    {QS : PriorityQueueSpec Q} (start : Board) (q : pq) : Prop :=
  Forall (fun x => in_tree make_hash start x.1) (pq_elems q).

(** The board after the moves [ms], made one after the other. *)
Fixpoint run_moves (b : Board) (ms : list Move.type_t) : option Board :=
  match ms with
  | [] => Some b
  | m :: ms' =>
      match next_board b m with
      | Done (Some b') => run_moves b' ms'
      | _ => None
      end
  end.

(** [make_hash] tells apart any two boards of the set [P]. *)
Definition collision_free (make_hash : Board -> Z) (P : Board -> Prop) : Prop :=
  forall b1 b2, P b1 -> P b2 -> make_hash b1 = make_hash b2 -> b1 = b2.

(** The boards a search from [start] for [goal] can compare by hash: the
    rearrangements of [start], and [goal]. *)
Definition search_boards (start goal : Board) (b : Board) : Prop :=
  b ≡ₚ start \/ b = goal.

(** The score the specification describes: the sum, over the indices where
    goal and state differ, of the distance between the index and the place
    of the goal symbol in the state. *)
Fixpoint index_distance_sum (state : Board) (i : nat) (goal : list ascii) : Z :=
  match goal with
  | [] => 0
  | c :: goal' =>
      (if cell_is state i c then 0
       else Z.abs (Z.of_nat (find_index c state) - Z.of_nat i))
      + index_distance_sum state (S i) goal'
  end.

(** A lookup of [calc_score] that lands before its own index: the cell [k]
    of the goal cells [goal], which start at index [i], holds a symbol that
    differs from the state's cell and is first found in the state before
    index [i + k]. *)
Definition falls_short (state : Board) (i : nat) (goal : list ascii) (k : nat)
  : Prop :=
  exists c, goal !! k = Some c /\ cell_is state (i + k)%nat c = false /\
            (find_index c state < i + k)%nat.

#[global] Instance ascii_eq_decision : EqDecision ascii := ascii_dec.

(** The arrangements of a board: the different boards that hold its cells
    in some order, each listed once. *)
Definition arrangements (b : Board) : list Board :=
  remove_dups (permutations b).

(** Every board on the predecessor chain of [s], [s] included, is a
    rearrangement of [start] and a valid board. *)
Definition chain_keeps_cells (start : Board) (s : PuzzleState) : Prop :=
  forall t, t ∈ solution s -> getState t ≡ₚ start /\ valid_board (getState t).

(** Every second entry of a list, the first one included. *)
Fixpoint evens {A : Type} (l : list A) : list A :=
  match l with
  | [] => []
  | x :: l' => x :: match l' with
                    | [] => []
                    | _ :: l'' => evens l''
                    end
  end.

(** A chain, nearest state first, on which no state has the cached hash of
    a state two or more links further up: what the cycle check leaves. *)
Inductive spaced : list PuzzleState -> Prop :=
| spaced_nil : spaced []
| spaced_one x : spaced [x]
| spaced_cons x y l :
    Forall (fun a => getHash a <> getHash x) l ->
    spaced (y :: l) -> spaced (x :: y :: l).

(** A bound on the number of states in the subtree of a state that may
    still grow by [r] levels, each state having at most four successors. *)
Fixpoint weight (r : nat) : nat :=
  match r with
  | O => 1%nat
  | S r' => (1 + 4 * weight r')%nat
  end.

(** The bound summed over a frontier, [D] being a bound on chain length. *)
Definition frontier_weight (D : nat) (search : list PuzzleState) : nat :=
  sum_list_with (fun s => weight (D - S (depth s))) search.

(** The direction that takes the agent back. *)
Definition opposite (m : Move.type_t) : Move.type_t :=
  match m with
  | Move.LEFT => Move.RIGHT
  | Move.RIGHT => Move.LEFT
  | Move.UP => Move.DOWN
  | Move.DOWN => Move.UP
  | Move.UNKNOWN => Move.UNKNOWN
  end.

(** A sequence of boards in which each board is one move from the one
    before it. *)
Inductive legal_path : list Board -> Prop :=
| legal_nil : legal_path []
| legal_one b : legal_path [b]
| legal_snoc path b b' :
    legal_path (path ++ [b]) -> one_move b b' ->
    legal_path ((path ++ [b]) ++ [b']).

(** Every state of the tree with the goal's hash lies strictly below some
    entry of the priority queue. *)
Definition astar_covered (make_hash : Board -> Z) {Q : PriorityQueue}
    {QS : PriorityQueueSpec Q} (start : Board) (goalHash : Z) (q : pq) : Prop :=
  forall g, in_tree make_hash start g -> getHash g = goalHash ->
            exists x, x ∈ pq_elems q /\ x.1 ∈ ancestors g.

(** A family of valid boards, one for each number below [32^15]: the
    agent, then fifteen cells spelling the number in base 32 with the
    characters of codes 64 to 95. *)
Fixpoint digits (k : nat) (z : Z) : list Z :=
  match k with
  | O => []
  | S k' => z mod 32 :: digits k' (z / 32)
  end.

Definition undigits (ds : list Z) : Z :=
  fold_right (fun d acc => d + 32 * acc) 0 ds.

Definition cell_of (d : Z) : ascii := ascii_of_N (Z.to_N (64 + d)).

Definition numbered_board (z : Z) : Board :=
  agent :: map cell_of (digits 15 z).

(** ** Concrete instances used to run the model *)

Definition board_of (s : string) : Board := list_ascii_of_string s.

Definition code (c : ascii) : Z := Z.of_N (N_of_ascii c).

(** A hash that adds up the character codes: blind to the order of cells. *)
Definition additive_hash (b : Board) : Z :=
  fold_right (fun c acc => (code c + acc) mod 2 ^ 64) 0 b.

(** A hash that packs the low four bits of every cell: below [2^64] on a
    board, and free of collisions among boards over symbols such as
    [' '], ['*'], ['a'], ['b'], ['c'] whose low four bits differ. *)
Definition nibble_hash (b : Board) : Z :=
  fold_right (fun c acc => code c mod 16 + 16 * acc) 0 b.

(** A priority queue kept as an unordered list: [pq_pop] takes out the
    first entry of least score. *)
Fixpoint extract_min (l : list PuzzleAndScore)
  : option (PuzzleAndScore * list PuzzleAndScore) :=
  match l with
  | [] => None
  | x :: l' =>
      match extract_min l' with
      | None => Some (x, [])
      | Some (y, r) => if x.2 <=? y.2 then Some (x, l') else Some (y, x :: r)
      end
  end.

Definition list_queue : PriorityQueue :=
  {| pq := list PuzzleAndScore;
     pq_empty := [];
     pq_push := cons;
     pq_pop := extract_min |}.


(** A build on which a score without a defined result comes out as 0. *)
Definition zero_build : Build := fun _ _ => 0.

(** The cell the agent would move to, in grid coordinates: column and row
    of [index] shifted by the direction. *)
Definition target_cell (index : nat) (move : Move.type_t) : Z * Z :=
  let col := Z.of_nat index mod 4 in
  let row := Z.of_nat index / 4 in
  match move with
  | Move.LEFT => (col - 1, row)
  | Move.UP => (col, row - 1)
  | Move.RIGHT => (col + 1, row)
  | Move.DOWN => (col, row + 1)
  | Move.UNKNOWN => (col, row)
  end.

Definition in_grid (cell : Z * Z) : Prop :=
  0 <= cell.1 < 4 /\ 0 <= cell.2 < 4.

Definition flat_index (cell : Z * Z) : nat := Z.to_nat (cell.2 * 4 + cell.1).

(** [b'] is [b] with the cells [i] and [j] exchanged. *)
Definition swapped (b : Board) (i j : nat) (b' : Board) : Prop :=
  length b' = length b /\
  forall k, b' !! k =
    b !! (if decide (k = i) then j else if decide (k = j) then i else k).

(** The walk as the specification words it: from the predecessor's
    predecessor of the expanded state upwards, the immediate parent left
    out. *)
Definition walk_skipping_parent (s : PuzzleState) : list PuzzleState :=
  match getParent s with
  | Some p => ancestors p
  | None => []
  end.

(** The boards of [main], and a row the agent has to cross. *)
Definition start_main : Board := board_of "a   *    b c    ".
Definition goal_main : Board := board_of "abc*            ".
Definition start_row : Board := board_of "*abc            ".
Definition goal_row : Board := board_of "abc*            ".

(** [start_row] after one move to the right, as a state of the tree. *)
Definition row_step (make_hash : Board -> Z) : PuzzleState :=
  new_child make_hash (new_root make_hash start_row)
    (board_of "a*bc            ").

(** A start and a goal that [nibble_hash] cannot tell apart once the agent
    has stepped to the right: ['a'] and ['q'] share their low four bits,
    and the goal holds a label the start does not have. *)
Definition start_q : Board := board_of "*a              ".
Definition goal_q : Board := board_of "q*              ".

(** Three tiles around the agent in the top left corner: the goal is five
    moves away clockwise and seven anticlockwise. *)
Definition corner_start : Board := board_of "*a  cb          ".
Definition corner_two : Board := board_of "ab  c*          ".
Definition corner_goal : Board := board_of "b*  ac          ".

(** [nibble_hash] with one collision put in: the board two moves along
    the clockwise way hashes like [corner_start]. *)
Definition biased_hash (b : Board) : Z :=
  let h := nibble_hash b in
  if h =? nibble_hash corner_two then nibble_hash corner_start else h.

(** One label to carry down a column. *)
Definition start_column : Board := board_of "*a              ".
Definition goal_column : Board := board_of "a   *           ".

(** The five symbols of the sample boards; their low four bits differ. *)
Definition sample_alphabet : list ascii :=
  [" "%char; "*"%char; "a"%char; "b"%char; "c"%char].

(** A goal with a label that [start_column] lacks. *)
Definition goal_other : Board := board_of "b*              ".

(** Sixteen blanks: a board without the agent. *)
Definition no_agent_board : Board := board_of "                ".

(** [start_column] with its label replaced by one it does not hold. *)
Definition goal_relabelled : Board := board_of "*b              ".

(** The goal of [main] with the label ['z'], which [start_main] does not
    hold, in the place of ['c']. *)
Definition goal_absent : Board := board_of "abz*            ".

(** The agent alone on the board, in the top left corner. *)
Definition start_alone : Board := board_of "*               ".

(** The agent where [start_column] and [start_alone] have it, and fifteen
    labels around it. *)
Definition goal_labels : Board := board_of "*bbbbbbbbbbbbbbb".

(** The lists obtained by putting [x] into [l] at some place. *)
Definition inserts (x : ascii) (l : list ascii) : list (list ascii) :=
  map (fun i => take i l ++ x :: drop i l) (seq 0 (S (length l))).

(** The boards that hold the agent among blanks, and those that hold the
    agent and one label ['a'] among blanks. *)
Definition one_placed : list Board :=
  inserts agent (replicate 15 " "%char).

Definition two_placed : list Board :=
  l ← inserts "a"%char (replicate 14 " "%char); inserts agent l.

(** * The N smallest numbers of a stream ([STLPlayground.cpp])

    [findNSmallest] and [findNSmallest2] only compare and copy their
    [double] values: [T] stands for the values that are not NaN, [ltb] for
    [operator<] on them and [dbl_max] for
    [std::numeric_limits<double>::max()]. *)

Module NSmallest.

Section Definitions.

Variable T : Type.
Variable ltb : T -> T -> bool.
Variable dbl_max : T.

(** [std::lower_bound(buffer.begin(), buffer.end(), tmp) - buffer.begin()]
    on a sorted buffer: the first position whose value is not less than
    [tmp]. *)
Fixpoint lower_bound (buffer : list T) (tmp : T) : nat :=
  match buffer with
  | [] => O
  | e :: buffer' => if ltb e tmp then S (lower_bound buffer' tmp) else O
  end.

(** [buffer.insert(it, tmp)]. *)
Definition vector_insert (it : nat) (tmp : T) (buffer : list T) : list T :=
  take it buffer ++ tmp :: drop it buffer.

(** One round of the loop of [findNSmallest]; [buffer.resize(n)] cuts the
    [n + 1] values back to [n]. *)
Definition keep_smallest (n : nat) (buffer : list T) (tmp : T) : list T :=
  take n (vector_insert (lower_bound buffer tmp) tmp buffer).

(** The buffer that [findNSmallest] copies to its output. *)
Definition findNSmallest (input : list T) (n : nat) : list T :=
  fold_left (keep_smallest n) input (replicate n dbl_max).

(** The insertion loop of [findNSmallest2]: before the first node whose
    value is greater than [tmp], or after the last node. *)
Fixpoint list_insert (tmp : T) (head : list T) : list T :=
  match head with
  | [] => [tmp]
  | c :: rest =>
      if ltb tmp c then tmp :: c :: rest else c :: list_insert tmp rest
  end.

(** The trimming loop: with [n = 0] its body never runs. *)
Definition trim (n : nat) (head : list T) : list T :=
  match n with
  | O => head
  | S _ => take n head
  end.

(** The list [findNSmallest2] holds when its input is used up. *)
Definition kept_list (input : list T) (n : nat) : list T :=
  fold_left (fun head tmp => trim n (list_insert tmp head)) input [].

(** The last loop of [findNSmallest2]: [*oit = value] for every node, the
    iterator never moved; on an output without cells the first store is
    outside it. *)
Fixpoint store_all (head : list T) (output : list T) : outcome (list T) :=
  match head with
  | [] => Done output
  | v :: rest =>
      match output with
      | [] => Fault
      | _ :: output' => store_all rest (v :: output')
      end
  end.

Definition findNSmallest2 (input : list T) (n : nat) (output : list T)
  : outcome (list T) :=
  store_all (kept_list input n) output.

(** [a] is not greater than [b]. *)
Definition le (a b : T) : Prop := ltb b a = false.

(** [kept] is sorted and holds, of the values [seen], the smallest: the
    others are [dropped], and some were dropped only if [kept] is full. *)
Definition smallest_of (n : nat) (seen kept : list T) : Prop :=
  StronglySorted le kept /\
  exists dropped, seen ≡ₚ kept ++ dropped /\
    (forall x y, x ∈ kept -> y ∈ dropped -> le x y) /\
    (dropped = [] \/ length kept = n).

End Definitions.

End NSmallest.

(** * Properties *)

(** ** Lists, [std::find] and [std::swap] *)

Lemma find_index_le c b : (find_index c b <= length b)%nat.
Proof.
  induction b as [|x b IH]; simpl; [lia|].
  destruct (Ascii.eqb x c); lia.
Qed.

Lemma find_index_In c b :
  In c b -> (find_index c b < length b)%nat /\ b !! find_index c b = Some c.
Proof.
  induction b as [|x b IH]; simpl; [tauto|].
  intros Hin. destruct (Ascii.eqb x c) eqn:E.
  - apply Ascii.eqb_eq in E. subst. split; [lia|reflexivity].
  - apply Ascii.eqb_neq in E. destruct Hin as [->|Hin]; [congruence|].
    destruct (IH Hin). split; [lia|assumption].
Qed.

Lemma find_index_absent c b : ~ In c b -> find_index c b = length b.
Proof.
  induction b as [|x b IH]; simpl; [reflexivity|].
  intros Hn. destruct (Ascii.eqb x c) eqn:E.
  - apply Ascii.eqb_eq in E. subst. tauto.
  - f_equal. apply IH. tauto.
Qed.

Lemma find_index_first c b k :
  (k < find_index c b)%nat -> b !! k <> Some c.
Proof.
  revert k. induction b as [|x b IH]; simpl; intros k Hk; [lia|].
  destruct (Ascii.eqb x c) eqn:E; [lia|].
  apply Ascii.eqb_neq in E. destruct k as [|k]; simpl.
  - congruence.
  - apply IH. lia.
Qed.

Lemma elem_of_rev {A} (x : A) (l : list A) : x ∈ rev l <-> x ∈ l.
Proof. rewrite !list_elem_of_In. symmetry. apply in_rev. Qed.

Lemma valid_board_agent b : valid_board b -> In agent b.
Proof.
  intros [_ Hc]. apply (count_occ_In ascii_dec). lia.
Qed.

Lemma valid_board_index b :
  valid_board b ->
  (find_index agent b < 16)%nat /\ b !! find_index agent b = Some agent.
Proof.
  intros Hv. destruct (find_index_In agent b (valid_board_agent b Hv)) as [H1 H2].
  destruct Hv as [Hl _]. unfold board_size in Hl. split; [lia|assumption].
Qed.

Lemma insert_head_perm (l : Board) j x y :
  l !! j = Some y -> y :: <[j:=x]> l ≡ₚ x :: l.
Proof.
  revert j. induction l as [|z l IH]; intros j Hj; [discriminate|].
  destruct j as [|j]; simpl in *.
  - injection Hj as ->. apply perm_swap.
  - rewrite (perm_swap z y). rewrite (IH j Hj). apply perm_swap.
Qed.

Lemma swap_insert_perm (l : Board) i j x y :
  l !! i = Some x -> l !! j = Some y -> <[j:=x]> (<[i:=y]> l) ≡ₚ l.
Proof.
  revert i j. induction l as [|z l IH]; intros i j Hi Hj; [discriminate|].
  destruct i as [|i], j as [|j]; simpl in *.
  - injection Hi as ->. reflexivity.
  - injection Hi as ->. apply insert_head_perm. assumption.
  - injection Hj as ->. apply insert_head_perm. assumption.
  - f_equiv. apply IH; assumption.
Qed.

Lemma swap_cells_perm b i j b' : swap_cells b i j = Done b' -> b' ≡ₚ b.
Proof.
  unfold swap_cells. destruct (b !! i) eqn:Hi; [|discriminate].
  destruct (b !! j) eqn:Hj; [|discriminate].
  intros [= <-]. apply swap_insert_perm; assumption.
Qed.

Lemma swap_cells_swapped b i j b' : swap_cells b i j = Done b' -> swapped b i j b'.
Proof.
  unfold swap_cells. destruct (b !! i) as [ci|] eqn:Hi; [|discriminate].
  destruct (b !! j) as [cj|] eqn:Hj; [|discriminate].
  intros [= <-]. split.
  - rewrite !length_insert. reflexivity.
  - pose proof (lookup_lt_Some _ _ _ Hi) as Li.
    pose proof (lookup_lt_Some _ _ _ Hj) as Lj.
    intros k. destruct (decide (k = i)) as [->|Hki].
    + destruct (decide (i = j)) as [->|Hij].
      * rewrite list_lookup_insert_eq by (rewrite length_insert; lia). congruence.
      * rewrite list_lookup_insert_ne by congruence.
        rewrite list_lookup_insert_eq by lia. congruence.
    + destruct (decide (k = j)) as [->|Hkj].
      * rewrite list_lookup_insert_eq by (rewrite length_insert; lia). congruence.
      * rewrite !list_lookup_insert_ne by congruence. reflexivity.
Qed.

Lemma swap_cells_in_range b i j :
  (i < length b)%nat -> (j < length b)%nat -> exists b', swap_cells b i j = Done b'.
Proof.
  intros Hi Hj. unfold swap_cells.
  destruct (lookup_lt_is_Some_2 b i Hi) as [ci ->].
  destruct (lookup_lt_is_Some_2 b j Hj) as [cj ->]. eauto.
Qed.

(** ** The switch on the direction *)

Tactic Notation "first_sixteen" ident(n) :=
  do 16 (try destruct n as [|n]); [..| exfalso; simpl in *; lia].

Lemma new_index_in_range index m j :
  (index < 16)%nat -> new_index index m = Done (Some j) -> (j < 16)%nat.
Proof.
  intros Hi H. first_sixteen index; destruct m; vm_compute in H;
    try discriminate; injection H as <-; lia.
Qed.

Lemma new_index_moves index m :
  m ∈ moves -> new_index index m <> Fault.
Proof.
  intros Hm. unfold moves in Hm. rewrite !elem_of_cons in Hm.
  unfold new_index.
  destruct Hm as [->|[->|[->|[->|Hm]]]];
    [| | | |by apply elem_of_nil in Hm];
    match goal with |- context [if ?c then _ else _] => destruct c end;
    discriminate.
Qed.

(** [new_index] agrees with the grid reading of a move: it gives the flat
    index of the target cell when that cell is in the grid, and nothing
    otherwise. *)
Lemma new_index_target index m :
  (index < 16)%nat -> m ∈ moves ->
  (in_grid (target_cell index m) /\
   new_index index m = Done (Some (flat_index (target_cell index m)))) \/
  (~ in_grid (target_cell index m) /\ new_index index m = Done None).
Proof.
  intros Hi Hm. unfold moves in Hm. rewrite !elem_of_cons in Hm.
  first_sixteen index;
  (destruct Hm as [->|[->|[->|[->|Hm]]]]; [| | | |by apply elem_of_nil in Hm]);
    first [ left; split; [vm_compute; intuition (first [discriminate|reflexivity])
                         | reflexivity]
          | right; split; [vm_compute; intuition (first [discriminate|reflexivity])
                          | reflexivity] ].
Qed.

Lemma new_index_differs index m j :
  new_index index m = Done (Some j) -> j <> index.
Proof.
  unfold new_index. pose proof (Nat.div_mod_eq index 4) as E.
  revert E. generalize (index / 4)%nat (index mod 4)%nat. intros y x E.
  destruct m; try discriminate;
    match goal with |- context [if ?c then _ else _] => destruct c eqn:C end;
    try discriminate; intros [= <-];
    apply Nat.eqb_neq in C; lia.
Qed.

(** ** The board after a move *)

Lemma next_board_perm b m b' : next_board b m = Done (Some b') -> b' ≡ₚ b.
Proof.
  unfold next_board. destruct (new_index _ m) as [|[j|]]; try discriminate.
  destruct (swap_cells _ _ _) as [|b''] eqn:E; [discriminate|].
  intros [= <-]. eapply swap_cells_perm. eassumption.
Qed.

Lemma valid_board_perm b b' : b' ≡ₚ b -> valid_board b -> valid_board b'.
Proof.
  intros Hp [Hl Hc]. split.
  - rewrite <- Hl. apply Permutation_length. assumption.
  - rewrite <- Hc. apply Permutation_count_occ. assumption.
Qed.

Lemma next_board_valid b m :
  valid_board b -> m ∈ moves -> next_board b m <> Fault.
Proof.
  intros Hv Hm. unfold next_board.
  destruct (valid_board_index b Hv) as [Hi Ha].
  destruct (new_index _ m) as [|[j|]] eqn:E.
  - exfalso. eapply new_index_moves; eassumption.
  - pose proof (new_index_in_range _ _ _ Hi E) as Hj.
    destruct Hv as [Hl _]. unfold board_size in Hl.
    destruct (swap_cells_in_range b (find_index agent b) j) as [b' ->];
      [lia|lia|discriminate].
  - discriminate.
Qed.

(** ** The move generator *)

Section MoveGenerator.

Variable make_hash : Board -> Z.

Lemma hash_on_chain_spec h a :
  hash_on_chain h a = true <-> exists x, x ∈ a :: ancestors a /\ h = getHash x.
Proof.
  induction a as [h0 b0|h0 b0 p IH]; simpl.
  - rewrite orb_false_r, Z.eqb_eq. split.
    + intros ->. eexists. split; [left|reflexivity].
    + intros (x & Hx & ->). apply list_elem_of_singleton in Hx. subst. reflexivity.
  - rewrite orb_true_iff, Z.eqb_eq, IH. split.
    + intros [->|(x & Hx & ->)].
      * eexists. split; [left|reflexivity].
      * exists x. split; [right; assumption|reflexivity].
    + intros (x & Hx & ->). apply elem_of_cons in Hx as [->|Hx].
      * left. reflexivity.
      * right. eauto.
Qed.

Lemma cyclic_spec s h :
  cyclic s h = true <-> exists a, a ∈ ancestors s /\ h = getHash a.
Proof.
  unfold cyclic. destruct s as [h0 b0|h0 b0 p]; simpl.
  - split; [discriminate|]. intros (a & Ha & _). by apply elem_of_nil in Ha.
  - apply hash_on_chain_spec.
Qed.

Lemma make_next_state_inv s m next :
  make_next_state make_hash s m = Done (Some next) ->
  exists b', next_board (getState s) m = Done (Some b') /\
             cyclic s (make_hash b') = false /\
             next = new_child make_hash s b'.
Proof.
  unfold make_next_state.
  destruct (next_board _ m) as [|[b'|]]; try discriminate.
  destruct (cyclic s _) eqn:C; [discriminate|].
  intros [= <-]. eauto.
Qed.

Lemma make_next_state_valid s m :
  valid_board (getState s) -> m ∈ moves ->
  make_next_state make_hash s m <> Fault.
Proof.
  intros Hv Hm. unfold make_next_state.
  pose proof (next_board_valid _ _ Hv Hm) as Hn.
  destruct (next_board _ m) as [|[b'|]]; [congruence| |discriminate].
  destruct (cyclic s _); discriminate.
Qed.

Lemma make_next_state_child s m next :
  make_next_state make_hash s m = Done (Some next) ->
  getParent next = Some s /\ getHash next = make_hash (getState next) /\
  getState next ≡ₚ getState s /\ depth next = S (depth s) /\
  ancestors next = s :: ancestors s.
Proof.
  intros H. apply make_next_state_inv in H as (b' & Hb & _ & ->).
  simpl. repeat split; try reflexivity. eapply next_board_perm; eassumption.
Qed.

Lemma ancestors_depth (s a : PuzzleState) :
  a ∈ ancestors s -> (depth a < depth s)%nat.
Proof.
  induction s as [|h b p IH]; simpl.
  - intros Ha. by apply elem_of_nil in Ha.
  - intros [->|Ha]%elem_of_cons; [lia|]. specialize (IH Ha). lia.
Qed.

Lemma children_spec p ms c :
  c ∈ children make_hash p ms <->
  exists m, m ∈ ms /\ make_next_state make_hash p m = Done (Some c).
Proof.
  induction ms as [|m ms IH]; simpl.
  - split; [intros H; by apply elem_of_nil in H|].
    intros (m & Hm & _). by apply elem_of_nil in Hm.
  - destruct (make_next_state make_hash p m) as [|[x|]] eqn:E.
    + rewrite IH. split; intros (m' & Hm & H).
      * exists m'. split; [right; assumption|assumption].
      * apply elem_of_cons in Hm as [->|Hm]; [congruence|eauto].
    + rewrite elem_of_cons, IH. split.
      * intros [->|(m' & Hm & H)]; [exists m; split; [left|assumption]|].
        exists m'. split; [right; assumption|assumption].
      * intros (m' & Hm & H). apply elem_of_cons in Hm as [->|Hm].
        -- left. congruence.
        -- right. eauto.
    + rewrite IH. split; intros (m' & Hm & H).
      * exists m'. split; [right; assumption|assumption].
      * apply elem_of_cons in Hm as [->|Hm]; [congruence|eauto].
Qed.

Lemma children_depth p ms c :
  c ∈ children make_hash p ms -> depth c = S (depth p).
Proof.
  intros (m & _ & H)%children_spec.
  apply make_next_state_child in H. tauto.
Qed.

End MoveGenerator.

(** C5. For a state whose board is valid and a direction among left, up,
    right, down: a target cell outside the grid gives none, never a fault;
    a target inside the grid gives either a cycle rejection or a successor
    whose board is the input board with agent cell and target cell
    exchanged and whose predecessor is the input state. *)
Theorem C5_move_generator (make_hash : Board -> Z) s m :
  valid_board (getState s) -> m ∈ moves ->
  let index := find_index agent (getState s) in
  let target := target_cell index m in
  getState s !! index = Some agent /\
  (~ in_grid target -> make_next_state make_hash s m = Done None) /\
  (in_grid target ->
   exists b', swapped (getState s) index (flat_index target) b' /\
     if cyclic s (make_hash b')
     then make_next_state make_hash s m = Done None
     else exists next, make_next_state make_hash s m = Done (Some next) /\
            getState next = b' /\ getParent next = Some s).
Proof.
  intros Hv Hm index target.
  destruct (valid_board_index _ Hv) as [Hi Ha]. fold index in Hi, Ha.
  split; [assumption|].
  assert (Hl : length (getState s) = 16%nat) by apply Hv.
  destruct (new_index_target index m Hi Hm) as [[Hin E]|[Hout E]];
    fold target in Hin || fold target in Hout; fold target in E.
  - split; [tauto|]. intros _.
    pose proof (new_index_in_range _ _ _ Hi E) as Hj.
    destruct (swap_cells_in_range (getState s) index (flat_index target))
      as [b' Hs]; [lia|lia|].
    exists b'. split; [apply swap_cells_swapped; assumption|].
    unfold make_next_state, next_board. fold index. rewrite E, Hs.
    destruct (cyclic s (make_hash b')); [reflexivity|].
    eexists. split; [reflexivity|]. split; reflexivity.
  - split; [|tauto]. intros _.
    unfold make_next_state, next_board. fold index. rewrite E. reflexivity.
Qed.

Lemma C5_witness :
  make_next_state nibble_hash (new_root nibble_hash start_main) Move.LEFT
  = Done None.
Proof.
  apply (C5_move_generator nibble_hash (new_root nibble_hash start_main) Move.LEFT).
  - split; reflexivity.
  - repeat constructor.
  - vm_compute. intros [[H _] _]. apply H. reflexivity.
Defined.

(** C4, as the code has it. For a move that stays on the grid, the walk
    visits the expanded state's predecessor first and then every earlier
    ancestor, and the move is rejected exactly when the hash of the new
    board is the cached hash of one of them. *)
Theorem C4_cycle_walk_from_predecessor (make_hash : Board -> Z) s m b' :
  next_board (getState s) m = Done (Some b') ->
  (make_next_state make_hash s m = Done None <->
   exists a, a ∈ ancestors s /\ make_hash b' = getHash a) /\
  (forall p, getParent s = Some p ->
             ancestors s = p :: walk_skipping_parent s).
Proof.
  intros Hb. split.
  - rewrite <- cyclic_spec. unfold make_next_state. rewrite Hb.
    destruct (cyclic s (make_hash b')); split; congruence.
  - intros p Hp. destruct s; simpl in *; [discriminate|].
    injection Hp as ->. reflexivity.
Qed.

Lemma C4_witness :
  make_next_state nibble_hash (row_step nibble_hash) Move.LEFT = Done None <->
  exists a, a ∈ ancestors (row_step nibble_hash) /\
            nibble_hash start_row = getHash a.
Proof.
  apply (C4_cycle_walk_from_predecessor nibble_hash (row_step nibble_hash)
           Move.LEFT start_row).
  reflexivity.
Defined.

(** C4 as worded fails: one step away from the root, the move back is
    rejected although the walk that leaves out the immediate parent visits
    no state at all. *)
Lemma C4_counterexample :
  ~ (forall s m b',
       next_board (getState s) m = Done (Some b') ->
       (make_next_state nibble_hash s m = Done None <->
        exists a, a ∈ walk_skipping_parent s /\ nibble_hash b' = getHash a)).
Proof.
  intros H.
  specialize (H (row_step nibble_hash) Move.LEFT start_row eq_refl).
  destruct H as [H _]. destruct (H eq_refl) as (a & Ha & _).
  simpl in Ha. by apply elem_of_nil in Ha.
Qed.

(** ** The heuristic *)

Lemma cell_is_false_absent state i c : ~ In c state -> cell_is state i c = false.
Proof.
  intros Hn. unfold cell_is. destruct (state !! i) as [x|] eqn:E; [|reflexivity].
  apply Ascii.eqb_neq. intros ->. apply Hn.
  apply list_elem_of_In. eapply list_elem_of_lookup_2. eassumption.
Qed.

(** ** The search tree *)

Section SearchTree.

Variable make_hash : Board -> Z.
Variable start : Board.

Let tree := in_tree make_hash start.

Lemma in_tree_hash s : tree s -> getHash s = make_hash (getState s).
Proof.
  intros [|p m next _ _ H]; [reflexivity|].
  apply make_next_state_child in H. tauto.
Qed.

Lemma in_tree_perm s : tree s -> getState s ≡ₚ start.
Proof.
  induction 1 as [|p m next _ IH _ H]; [reflexivity|].
  apply make_next_state_child in H as (_ & _ & Hp & _). by rewrite Hp.
Qed.

Lemma in_tree_ancestors s a : tree s -> a ∈ ancestors s -> tree a.
Proof.
  induction 1 as [|p m next Hp IH _ H]; simpl.
  - intros Ha. by apply elem_of_nil in Ha.
  - apply make_next_state_child in H as (_ & _ & _ & _ & ->).
    intros [->|Ha]%elem_of_cons; auto.
Qed.

Lemma in_tree_solution s a : tree s -> a ∈ solution s -> tree a.
Proof.
  unfold solution. intros Hs [->|Ha]%elem_of_cons; [assumption|].
  eapply in_tree_ancestors; eassumption.
Qed.

Lemma in_tree_solution_root s :
  tree s -> last (solution s) = Some (new_root make_hash start).
Proof.
  induction 1 as [|p m next Hp IH _ H]; [reflexivity|].
  apply make_next_state_child in H as (_ & _ & _ & _ & E).
  unfold solution in *. rewrite E. rewrite last_cons, IH. reflexivity.
Qed.

Lemma in_tree_root_or_below s :
  tree s -> s = new_root make_hash start \/
            new_root make_hash start ∈ ancestors s.
Proof.
  intros Hs. pose proof (in_tree_solution_root s Hs) as Hl.
  unfold solution in Hl. rewrite last_cons in Hl.
  destruct (last (ancestors s)) as [r|] eqn:E.
  - right. injection Hl as ->. apply last_Some_elem_of. assumption.
  - left. congruence.
Qed.

Lemma in_tree_reach s : tree s -> reach start (depth s) (getState s).
Proof.
  induction 1 as [|p m next Hp IH Hm H]; [constructor|].
  pose proof (make_next_state_child _ _ _ _ H) as (_ & _ & _ & -> & _).
  apply make_next_state_inv in H as (b' & Hb & _ & ->). simpl.
  econstructor; [eassumption|]. exists m. split; assumption.
Qed.

Lemma children_in_tree p c :
  tree p -> c ∈ children make_hash p moves -> tree c.
Proof.
  intros Hp (m & Hm & H)%children_spec. econstructor; eassumption.
Qed.

(** Below a state of the tree, the way down to any descendant starts with
    one of the state's children. *)
Lemma descendant_through_child g s :
  tree g -> s ∈ ancestors g ->
  exists c, c ∈ children make_hash s moves /\ (c = g \/ c ∈ ancestors g).
Proof.
  induction 1 as [|p m next Hp IH Hm H]; intros Ha.
  - simpl in Ha. by apply elem_of_nil in Ha.
  - pose proof (make_next_state_child _ _ _ _ H) as (_ & _ & _ & _ & E).
    rewrite E in Ha |- *. apply elem_of_cons in Ha as [->|Ha].
    + exists next. split; [|left; reflexivity].
      apply children_spec. eauto.
    + destruct (IH Ha) as (c & Hc & Hd). exists c. split; [assumption|].
      right. destruct Hd as [->|Hd]; [left|right; assumption].
Qed.

End SearchTree.

(** ** Breadth-first search *)

Section BreadthFirst.

Variable make_hash : Board -> Z.
Variable start : Board.
Variable goalHash : Z.

Let tree := in_tree make_hash start.

Lemma bfs_expand_inr p ms q q' :
  bfs_expand make_hash goalHash p ms q = Done (inr q') ->
  q' = rev (children make_hash p ms) ++ q /\
  Forall (fun c => getHash c <> goalHash) (children make_hash p ms).
Proof.
  revert q. induction ms as [|m ms IH]; simpl; intros q.
  - intros [= <-]. split; [reflexivity|constructor].
  - destruct (make_next_state make_hash p m) as [|[next|]]; [discriminate| |apply IH].
    destruct (getHash next =? goalHash) eqn:E; [discriminate|].
    intros H. apply IH in H as [-> HF]. split.
    + simpl. rewrite <- app_assoc. reflexivity.
    + constructor; [|assumption]. apply Z.eqb_neq. assumption.
Qed.

Lemma bfs_expand_inl p ms q next :
  bfs_expand make_hash goalHash p ms q = Done (inl next) ->
  next ∈ children make_hash p ms /\ getHash next = goalHash.
Proof.
  revert q. induction ms as [|m ms IH]; simpl; intros q; [discriminate|].
  destruct (make_next_state make_hash p m) as [|[c|]]; [discriminate| |apply IH].
  destruct (getHash c =? goalHash) eqn:E.
  - intros [= <-]. split; [left|apply Z.eqb_eq; assumption].
  - intros H. apply IH in H as [H1 H2]. split; [right|]; assumption.
Qed.

Lemma bfs_expand_defined p ms q :
  valid_board (getState p) -> (forall m, m ∈ ms -> m ∈ moves) ->
  bfs_expand make_hash goalHash p ms q <> Fault.
Proof.
  intros Hv. revert q. induction ms as [|m ms IH]; simpl; intros q Hms;
    [discriminate|].
  assert (Hm : m ∈ moves) by (apply Hms; left).
  assert (Hms' : forall m', m' ∈ ms -> m' ∈ moves) by (intros; apply Hms; by right).
  pose proof (make_next_state_valid make_hash p m Hv Hm) as Hn.
  destruct (make_next_state make_hash p m) as [|[c|]]; [congruence| |auto].
  destruct (getHash c =? goalHash); [discriminate|auto].
Qed.

Lemma bfs_round_inr q q' :
  bfs_round make_hash goalHash q = inr q' ->
  exists s rest, q = rest ++ [s] /\
    q' = rev (children make_hash s moves) ++ rest /\
    Forall (fun c => getHash c <> goalHash) (children make_hash s moves).
Proof.
  unfold bfs_round. destruct (last q) as [s|] eqn:El; [|discriminate].
  apply last_Some in El as [rest ->]. rewrite removelast_last.
  destruct (bfs_expand _ _ _ _ _) as [|[c|q'']] eqn:E; try discriminate.
  intros [= <-]. apply bfs_expand_inr in E as [-> HF]. eauto.
Qed.

Lemma bfs_round_solution q c :
  bfs_round make_hash goalHash q = inl (Solution c) ->
  exists s rest, q = rest ++ [s] /\
    c ∈ children make_hash s moves /\ getHash c = goalHash.
Proof.
  unfold bfs_round. destruct (last q) as [s|] eqn:El; [|discriminate].
  apply last_Some in El as [rest ->]. rewrite removelast_last.
  destruct (bfs_expand _ _ _ _ _) as [|[c'|q'']] eqn:E; try discriminate.
  intros [= <-]. apply bfs_expand_inl in E as [H1 H2]. eauto.
Qed.

Lemma bfs_round_empty q :
  bfs_round make_hash goalHash q = inl NoSolution -> q = [].
Proof.
  unfold bfs_round. destruct (last q) as [s|] eqn:El.
  - destruct (bfs_expand _ _ _ _ _) as [|[c'|q'']]; discriminate.
  - intros _. apply last_None. assumption.
Qed.

Lemma bfs_round_defined q :
  Forall (fun s => valid_board (getState s)) q ->
  bfs_round make_hash goalHash q <> inl Undefined /\
  bfs_round make_hash goalHash q <> inl Unfinished.
Proof.
  intros Hq. unfold bfs_round. destruct (last q) as [s|] eqn:El;
    [|split; discriminate].
  assert (Hv : valid_board (getState s)).
  { rewrite Forall_forall in Hq. apply Hq. apply last_Some_elem_of. assumption. }
  pose proof (bfs_expand_defined s moves (removelast q) Hv (fun m H => H)) as Hd.
  destruct (bfs_expand _ _ _ _ _) as [|[c'|q'']]; [congruence| |];
    split; discriminate.
Qed.

Lemma two_levels_back d rest s :
  two_levels d (rest ++ [s]) ->
  exists hi lo, rest = hi ++ lo /\
    Forall (fun x => depth x = S (depth s)) hi /\
    Forall (fun x => depth x = depth s) lo.
Proof.
  intros (hi & lo & E & Hhi & Hlo).
  induction lo as [|x lo _] using rev_ind.
  - rewrite app_nil_r in E. subst hi.
    apply Forall_app in Hhi as [Hr Hs]. rewrite Forall_singleton in Hs.
    simpl in Hs.
    exists [], rest. split; [reflexivity|]. split; [constructor|].
    rewrite Hs. assumption.
  - rewrite app_assoc in E. apply app_inj_tail in E as [-> ->].
    apply Forall_app in Hlo as [Hlo Hx]. rewrite Forall_singleton in Hx.
    simpl in Hx.
    exists hi, lo. rewrite Hx. auto.
Qed.

Lemma two_levels_least d rest s x :
  two_levels d (rest ++ [s]) -> x ∈ rest ++ [s] -> (depth s <= depth x)%nat.
Proof.
  intros H Hx. apply two_levels_back in H as (hi & lo & -> & Hhi & Hlo).
  rewrite Forall_forall in Hhi, Hlo.
  rewrite !elem_of_app in Hx. destruct Hx as [[Hx|Hx]|Hx].
  - rewrite (Hhi _ Hx). lia.
  - rewrite (Hlo _ Hx). lia.
  - apply list_elem_of_singleton in Hx. subst. lia.
Qed.

Lemma bfs_invariant_start :
  make_hash start <> goalHash -> bfs_invariant make_hash start goalHash [new_root make_hash start].
Proof.
  intros Hne. split; [|split].
  - constructor; [constructor|constructor].
  - exists 0%nat, [], [new_root make_hash start].
    split; [reflexivity|]. split; constructor; [reflexivity|constructor].
  - intros g Hg Hh. exists (new_root make_hash start). split; [left|].
    destruct (in_tree_root_or_below _ _ _ Hg) as [->|H]; [|assumption].
    simpl in Hh. congruence.
Qed.

Lemma bfs_invariant_round q q' :
  bfs_invariant make_hash start goalHash q -> bfs_round make_hash goalHash q = inr q' -> bfs_invariant make_hash start goalHash q'.
Proof.
  intros (Ht & [d Hl] & Hc) Hr.
  apply bfs_round_inr in Hr as (s & rest & -> & -> & Hng).
  apply Forall_app in Ht as [Ht Hs]. rewrite Forall_singleton in Hs.
  split; [|split].
  - apply Forall_app. split; [|assumption].
    apply Forall_rev, Forall_forall. intros c Hc'.
    eapply children_in_tree; eassumption.
  - apply two_levels_back in Hl as (hi & lo & -> & Hhi & Hlo).
    exists (depth s), (rev (children make_hash s moves) ++ hi), lo.
    split; [by rewrite app_assoc|]. split; [|assumption].
    apply Forall_app. split; [|assumption].
    apply Forall_rev, Forall_forall. intros c Hc'.
    eapply children_depth; eassumption.
  - intros g Hg Hh. destruct (Hc g Hg Hh) as (a & Ha & Hag).
    apply elem_of_app in Ha as [Ha|Ha].
    + exists a. split; [|assumption]. apply elem_of_app. by right.
    + apply list_elem_of_singleton in Ha. subst a.
      destruct (descendant_through_child _ _ _ _ Hg Hag) as (c & Hc1 & Hc2).
      exists c. split.
      * apply elem_of_app. left. apply elem_of_rev. assumption.
      * destruct Hc2 as [->|Hc2]; [|assumption].
        rewrite Forall_forall in Hng. exfalso. eapply Hng; eassumption.
Qed.

Lemma bfs_invariant_solution q c :
  bfs_invariant make_hash start goalHash q -> bfs_round make_hash goalHash q = inl (Solution c) ->
  tree c /\ getHash c = goalHash /\
  forall g, tree g -> getHash g = goalHash -> (depth c <= depth g)%nat.
Proof.
  intros (Ht & [d Hl] & Hc) Hr.
  apply bfs_round_solution in Hr as (s & rest & -> & Hcs & Hh).
  pose proof Ht as Ht'.
  apply Forall_app in Ht as [Ht Hs]. rewrite Forall_singleton in Hs.
  split; [eapply children_in_tree; eassumption|]. split; [assumption|].
  intros g Hg Hgh. destruct (Hc g Hg Hgh) as (a & Ha & Hag).
  pose proof (two_levels_least _ _ _ _ Hl Ha) as H1.
  pose proof (ancestors_depth _ _ Hag) as H2.
  rewrite (children_depth _ _ _ _ Hcs). lia.
Qed.

Lemma bfs_loop_solution fuel q c :
  bfs_invariant make_hash start goalHash q -> bfs_loop make_hash fuel goalHash q = Solution c ->
  tree c /\ getHash c = goalHash /\
  forall g, tree g -> getHash g = goalHash -> (depth c <= depth g)%nat.
Proof.
  revert q. induction fuel as [|fuel IH]; simpl; intros q Hq; [discriminate|].
  destruct (bfs_round make_hash goalHash q) as [v|q'] eqn:E.
  - intros ->. eapply bfs_invariant_solution; eassumption.
  - apply IH. eapply bfs_invariant_round; eassumption.
Qed.

End BreadthFirst.

(** ** A* search *)

Section AStar.

Variable make_hash : Board -> Z.
Context {Q : PriorityQueue} {QS : PriorityQueueSpec Q} {B : Build}.
Variable start goal : Board.
Variable goalHash : Z.

Let tree := in_tree make_hash start.
Let scored (c : PuzzleState) : PuzzleAndScore := with_score c goal.

Lemma astar_expand_inr best ms q q' :
  astar_expand make_hash goal goalHash best ms q = Done (inr q') ->
  pq_elems q' ≡ₚ map scored (children make_hash best ms) ++ pq_elems q /\
  Forall (fun c => getHash c <> goalHash) (children make_hash best ms).
Proof.
  revert q. induction ms as [|m ms IH]; simpl; intros q.
  - intros [= <-]. split; [reflexivity|constructor].
  - destruct (make_next_state make_hash best m) as [|[next|]];
      [discriminate| |apply IH].
    destruct (getHash next =? goalHash) eqn:E; [discriminate|].
    intros H. apply IH in H as [Hp HF]. split.
    + rewrite Hp, pq_elems_push. simpl.
      symmetry. apply Permutation_middle.
    + constructor; [|assumption]. apply Z.eqb_neq. assumption.
Qed.

Lemma astar_expand_inl best ms q next :
  astar_expand make_hash goal goalHash best ms q = Done (inl next) ->
  next ∈ children make_hash best ms /\ getHash next = goalHash.
Proof.
  revert q. induction ms as [|m ms IH]; simpl; intros q; [discriminate|].
  destruct (make_next_state make_hash best m) as [|[c|]];
    [discriminate| |apply IH].
  destruct (getHash c =? goalHash) eqn:E.
  - intros [= <-]. split; [left|apply Z.eqb_eq; assumption].
  - intros H. apply IH in H as [H1 H2]. split; [right|]; assumption.
Qed.

Lemma astar_expand_defined best ms q :
  valid_board (getState best) -> (forall m, m ∈ ms -> m ∈ moves) ->
  astar_expand make_hash goal goalHash best ms q <> Fault.
Proof.
  intros Hv. revert q. induction ms as [|m ms IH]; simpl; intros q Hms;
    [discriminate|].
  assert (Hm : m ∈ moves) by (apply Hms; left).
  assert (Hms' : forall m', m' ∈ ms -> m' ∈ moves) by (intros; apply Hms; by right).
  pose proof (make_next_state_valid make_hash best m Hv Hm) as Hn.
  destruct (make_next_state make_hash best m) as [|[c|]]; [congruence| |auto].
  destruct (getHash c =? goalHash); [discriminate|auto].
Qed.

Lemma astar_round_inr q q' :
  astar_round make_hash goal goalHash q = inr q' ->
  exists best rest, pq_pop q = Some (best, rest) /\
    pq_elems q ≡ₚ best :: pq_elems rest /\
    pq_elems q' ≡ₚ map scored (children make_hash best.1 moves) ++ pq_elems rest /\
    Forall (fun c => getHash c <> goalHash) (children make_hash best.1 moves).
Proof.
  unfold astar_round. destruct (pq_pop q) as [[best rest]|] eqn:Ep; [|discriminate].
  destruct (astar_expand _ _ _ _ _ _) as [|[c|q'']] eqn:E; try discriminate.
  intros [= <-]. apply astar_expand_inr in E as [Hp HF].
  exists best, rest. auto using pq_pop_Some.
Qed.

Lemma astar_round_solution q c :
  astar_round make_hash goal goalHash q = inl (Solution c) ->
  exists best rest, pq_elems q ≡ₚ best :: pq_elems rest /\
    c ∈ children make_hash best.1 moves /\ getHash c = goalHash.
Proof.
  unfold astar_round. destruct (pq_pop q) as [[best rest]|] eqn:Ep; [|discriminate].
  destruct (astar_expand _ _ _ _ _ _) as [|[c'|q'']] eqn:E; try discriminate.
  intros [= <-]. apply astar_expand_inl in E as [H1 H2].
  exists best, rest. auto using pq_pop_Some.
Qed.

Lemma astar_round_empty q :
  astar_round make_hash goal goalHash q = inl NoSolution -> pq_elems q = [].
Proof.
  unfold astar_round. destruct (pq_pop q) as [[best rest]|] eqn:Ep.
  - destruct (astar_expand _ _ _ _ _ _) as [|[c'|q'']]; discriminate.
  - intros _. apply pq_pop_None. assumption.
Qed.

Lemma astar_round_defined q :
  Forall (fun x => valid_board (getState x.1)) (pq_elems q) ->
  astar_round make_hash goal goalHash q <> inl Undefined /\
  astar_round make_hash goal goalHash q <> inl Unfinished.
Proof.
  intros Hq. unfold astar_round.
  destruct (pq_pop q) as [[best rest]|] eqn:Ep; [|split; discriminate].
  assert (Hv : valid_board (getState best.1)).
  { rewrite (pq_pop_Some _ _ _ Ep) in Hq. by apply Forall_cons in Hq as [? _]. }
  pose proof (astar_expand_defined best.1 moves rest Hv (fun m H => H)) as Hd.
  destruct (astar_expand _ _ _ _ _ _) as [|[c'|q'']]; [congruence| |];
    split; discriminate.
Qed.

Lemma astar_invariant_start :
  astar_invariant make_hash start (pq_push (scored (new_root make_hash start)) pq_empty).
Proof.
  unfold astar_invariant. rewrite pq_elems_push, pq_elems_empty.
  constructor; [constructor|constructor].
Qed.

Lemma astar_invariant_round q q' :
  astar_invariant make_hash start q -> astar_round make_hash goal goalHash q = inr q' ->
  astar_invariant make_hash start q'.
Proof.
  unfold astar_invariant. intros Ht Hr.
  apply astar_round_inr in Hr as (best & rest & _ & Hq & Hq' & _).
  rewrite Hq in Ht. apply Forall_cons in Ht as [Hb Ht].
  rewrite Hq'. apply Forall_app. split; [|assumption].
  apply Forall_map, Forall_forall. intros c Hc. simpl.
  eapply children_in_tree; eassumption.
Qed.

Lemma astar_loop_solution fuel q c :
  astar_invariant make_hash start q -> astar_loop make_hash fuel goal goalHash q = Solution c ->
  tree c /\ getHash c = goalHash.
Proof.
  revert q. induction fuel as [|fuel IH]; simpl; intros q Hq; [discriminate|].
  destruct (astar_round make_hash goal goalHash q) as [v|q'] eqn:E.
  - intros ->. apply astar_round_solution in E as (best & rest & Hp & Hc & Hh).
    unfold astar_invariant in Hq. rewrite Hp in Hq.
    apply Forall_cons in Hq as [Hb _].
    split; [eapply children_in_tree; eassumption|assumption].
  - apply IH. eapply astar_invariant_round; eassumption.
Qed.

End AStar.

(** ** What the searchers return *)

Section Results.

Variable make_hash : Board -> Z.
Context {Q : PriorityQueue} {QS : PriorityQueueSpec Q} {B : Build}.
Variable start goal : Board.

Let tree := in_tree make_hash start.

(** A state returned by [breadthFirst] is a state of the tree whose cached
    hash is the goal's, and no state of the tree with that hash is less
    deep. *)
Lemma breadthFirst_solution fuel s :
  breadthFirst make_hash fuel start goal = Solution s ->
  tree s /\ getHash s = make_hash goal /\
  forall g, tree g -> getHash g = make_hash goal -> (depth s <= depth g)%nat.
Proof.
  unfold breadthFirst. simpl.
  destruct (make_hash start =? make_hash goal) eqn:E.
  - intros [= <-]. apply Z.eqb_eq in E. split; [constructor|].
    split; [assumption|]. intros; simpl; lia.
  - apply Z.eqb_neq in E. apply bfs_loop_solution.
    apply bfs_invariant_start. assumption.
Qed.

Lemma aStar_solution fuel s :
  aStar make_hash fuel start goal = Solution s ->
  tree s /\ getHash s = make_hash goal.
Proof.
  unfold aStar. simpl.
  destruct (make_hash start =? make_hash goal) eqn:E.
  - intros [= <-]. apply Z.eqb_eq in E. split; [constructor|assumption].
  - apply astar_loop_solution with (QS:=QS). apply astar_invariant_start.
Qed.

Lemma rev_head_last {A} (l : list A) : head (rev l) = last l.
Proof.
  induction l as [|x l _] using rev_ind; [reflexivity|].
  rewrite rev_app_distr, last_snoc. reflexivity.
Qed.

Lemma rev_last_head {A} (l : list A) : last (rev l) = head l.
Proof.
  destruct l as [|x l]; [reflexivity|]. simpl. apply last_snoc.
Qed.

Lemma reconstruct_ends s :
  tree s ->
  head (reconstruct (Some s)) = Some start /\
  last (reconstruct (Some s)) = Some (getState s).
Proof.
  intros Hs. unfold reconstruct. rewrite rev_head_last, rev_last_head.
  split; [|reflexivity].
  change (map getState (solution s)) with (getState <$> solution s).
  rewrite fmap_last, (in_tree_solution_root _ _ _ Hs). reflexivity.
Qed.

End Results.

(** C8. When both searchers succeed on the same start and goal, the path
    of [breadthFirst] has no more moves than the path of [aStar]. *)
Theorem C8_breadth_first_no_longer (make_hash : Board -> Z)
    (Q : PriorityQueue) (QS : PriorityQueueSpec Q) (B : Build) start goal f1 f2 s1 s2 :
  breadthFirst make_hash f1 start goal = Solution s1 ->
  aStar make_hash f2 start goal = Solution s2 ->
  (depth s1 <= depth s2)%nat.
Proof.
  intros H1 H2.
  apply breadthFirst_solution in H1 as (_ & _ & Hmin).
  apply aStar_solution with (QS:=QS) in H2 as [Ht Hh].
  apply Hmin; assumption.
Qed.

(** C2, as the code has it. The sequence rebuilt from a returned state
    begins with the start board; its last board is a rearrangement of the
    start with the hash of the goal, and is the goal itself when the hash
    has no collision among the boards of the search. *)
Theorem C2_reconstructed_path (make_hash : Board -> Z)
    (Q : PriorityQueue) (QS : PriorityQueueSpec Q) (B : Build) start goal fuel s :
  breadthFirst make_hash fuel start goal = Solution s \/
  aStar make_hash fuel start goal = Solution s ->
  head (reconstruct (Some s)) = Some start /\
  (exists b, last (reconstruct (Some s)) = Some b /\
             b ≡ₚ start /\ make_hash b = make_hash goal) /\
  (collision_free make_hash (search_boards start goal) ->
   last (reconstruct (Some s)) = Some goal).
Proof.
  intros H.
  assert (Hs : in_tree make_hash start s /\ getHash s = make_hash goal).
  { destruct H as [H|H].
    - apply breadthFirst_solution in H. tauto.
    - eapply aStar_solution with (QS:=QS); eassumption. }
  destruct Hs as [Ht Hh].
  destruct (reconstruct_ends make_hash start s Ht) as [Hhd Hl].
  pose proof (in_tree_perm _ _ _ Ht) as Hp.
  rewrite (in_tree_hash _ _ _ Ht) in Hh.
  split; [assumption|]. split; [eauto|].
  intros Hcf. rewrite Hl. f_equal.
  apply Hcf; [left; assumption|right; reflexivity|assumption].
Qed.

(** ** The list queue meets the interface *)

Lemma extract_min_None l : extract_min l = None -> l = [].
Proof.
  destruct l as [|x l]; [reflexivity|]. simpl.
  destruct (extract_min l) as [[y r]|]; [|discriminate].
  destruct (x.2 <=? y.2); discriminate.
Qed.

Lemma extract_min_Some l x r :
  extract_min l = Some (x, r) ->
  l ≡ₚ x :: r /\ Forall (fun y => x.2 <= y.2) r.
Proof.
  revert x r. induction l as [|a l IH]; simpl; intros x r; [discriminate|].
  destruct (extract_min l) as [[y r']|] eqn:E.
  - destruct (IH y r' eq_refl) as [Hp Hle].
    destruct (a.2 <=? y.2) eqn:C; intros [= <- <-].
    + apply Z.leb_le in C. split; [reflexivity|].
      rewrite Hp. constructor; [assumption|].
      eapply Forall_impl; [eassumption|]. simpl. intros; lia.
    + apply Z.leb_gt in C. split.
      * rewrite Hp. apply perm_swap.
      * constructor; [lia|assumption].
  - apply extract_min_None in E. subst. intros [= <- <-].
    split; [reflexivity|constructor].
Qed.

Definition list_queue_spec : PriorityQueueSpec list_queue :=
  {| pq_elems := fun q : @pq list_queue => q;
     pq_elems_empty := eq_refl;
     pq_elems_push := fun x q => reflexivity (x :: q);
     pq_pop_None := extract_min_None;
     pq_pop_Some := fun q x q' H => proj1 (extract_min_Some q x q' H);
     pq_pop_least := fun q x q' H => proj2 (extract_min_Some q x q' H) |}.

(** ** [nibble_hash] on a small alphabet *)

Lemma nibble_hash_inj (A : list ascii) :
  (forall x y, x ∈ A -> y ∈ A -> code x mod 16 = code y mod 16 -> x = y) ->
  forall b1 b2, Forall (fun c => c ∈ A) b1 -> Forall (fun c => c ∈ A) b2 ->
    length b1 = length b2 -> nibble_hash b1 = nibble_hash b2 -> b1 = b2.
Proof.
  intros HA. induction b1 as [|x b1 IH]; intros [|y b2] H1 H2 Hl Hh;
    try discriminate; [reflexivity|].
  apply Forall_cons in H1 as [Hx H1]. apply Forall_cons in H2 as [Hy H2].
  simpl in Hh, Hl.
  pose proof (Z.mod_pos_bound (code x) 16 eq_refl) as Bx.
  pose proof (Z.mod_pos_bound (code y) 16 eq_refl) as By.
  assert (code x mod 16 = code y mod 16 /\ nibble_hash b1 = nibble_hash b2)
    as [E1 E2] by lia.
  f_equal; [apply HA; assumption|apply IH; auto].
Qed.

Lemma sample_alphabet_nibbles x y :
  x ∈ sample_alphabet -> y ∈ sample_alphabet ->
  code x mod 16 = code y mod 16 -> x = y.
Proof.
  unfold sample_alphabet. rewrite !elem_of_cons, !elem_of_nil.
  intros Hx Hy; repeat (destruct Hx as [->|Hx]; [|]); try tauto;
    repeat (destruct Hy as [->|Hy]; [|]); try tauto;
    vm_compute; intros E; first [reflexivity|discriminate E].
Qed.

Lemma nibble_hash_collision_free start goal :
  length start = length goal ->
  Forall (fun c => c ∈ sample_alphabet) start ->
  Forall (fun c => c ∈ sample_alphabet) goal ->
  collision_free nibble_hash (search_boards start goal).
Proof.
  intros Hl Hs Hg.
  assert (H : forall b, search_boards start goal b ->
            Forall (fun c => c ∈ sample_alphabet) b /\ length b = length start).
  { intros b [Hp| ->].
    - split; [|by rewrite Hp]. apply Forall_forall. intros c Hc.
      rewrite Hp in Hc. rewrite Forall_forall in Hs. auto.
    - split; [assumption|congruence]. }
  intros b1 b2 H1 H2 Hh. destruct (H _ H1), (H _ H2).
  eapply nibble_hash_inj; eauto using sample_alphabet_nibbles. congruence.
Qed.

Lemma reach_perm start n b : reach start n b -> b ≡ₚ start.
Proof.
  induction 1 as [|n b b' _ IH (m & _ & Hm)]; [reflexivity|].
  rewrite <- IH. eapply next_board_perm. eassumption.
Qed.

Ltac sample_cells :=
  unfold board_of; simpl; repeat constructor.

Lemma C8_witness :
  exists s1 s2,
    breadthFirst nibble_hash 10 start_column goal_column = Solution s1 /\
    aStar nibble_hash (Q:=list_queue) (B:=zero_build) 200 start_column goal_column = Solution s2 /\
    (depth s1 <= depth s2)%nat.
Proof.
  eexists _, _. split; [vm_compute; reflexivity|].
  split; [vm_compute; reflexivity|].
  eapply (C8_breadth_first_no_longer nibble_hash list_queue list_queue_spec zero_build
            start_column goal_column 10 200); vm_compute; reflexivity.
Defined.

Lemma C2_witness :
  exists s,
    breadthFirst nibble_hash 100 start_row goal_row = Solution s /\
    head (reconstruct (Some s)) = Some start_row /\
    last (reconstruct (Some s)) = Some goal_row.
Proof.
  eexists. split; [vm_compute; reflexivity|].
  edestruct (C2_reconstructed_path nibble_hash list_queue list_queue_spec zero_build
               start_row goal_row 100) as (H1 & _ & H3);
    [left; vm_compute; reflexivity|].
  split; [exact H1|]. apply H3.
  apply nibble_hash_collision_free; [reflexivity| |]; sample_cells.
Defined.

(** C2 as worded fails: [nibble_hash] gives the board reached from
    [start_q] by one move the hash of [goal_q], and the search ends on it. *)
Lemma C2_counterexample :
  ~ (forall (make_hash : Board -> Z) fuel start goal s,
       breadthFirst make_hash fuel start goal = Solution s ->
       head (reconstruct (Some s)) = Some start /\
       last (reconstruct (Some s)) = Some goal).
Proof.
  intros H.
  destruct (H nibble_hash 1%nat start_q goal_q _ eq_refl) as [_ Hl].
  vm_compute in Hl. discriminate Hl.
Qed.

(** C3, as the code has it. The cached hash also decides the goal test: a
    successor is returned as the goal exactly when its hash is the hash of
    the goal board, without a look at its cells; so a returned state has
    the goal's hash, and a start board with the goal's hash is returned at
    once. *)
Theorem C3_goal_test_by_hash (make_hash : Board -> Z)
    (Q : PriorityQueue) (QS : PriorityQueueSpec Q) (B : Build) start goal :
  (forall p m ms q next,
     make_next_state make_hash p m = Done (Some next) ->
     bfs_expand make_hash (make_hash goal) p (m :: ms) q =
       if make_hash (getState next) =? make_hash goal then Done (inl next)
       else bfs_expand make_hash (make_hash goal) p ms (next :: q)) /\
  (forall p m ms (q : pq) next,
     make_next_state make_hash p m = Done (Some next) ->
     astar_expand make_hash goal (make_hash goal) p (m :: ms) q =
       if make_hash (getState next) =? make_hash goal then Done (inl next)
       else astar_expand make_hash goal (make_hash goal) p ms
              (pq_push (with_score next goal) q)) /\
  (forall fuel s,
     breadthFirst make_hash fuel start goal = Solution s \/
     aStar make_hash fuel start goal = Solution s ->
     getHash s = make_hash (getState s) /\
     make_hash (getState s) = make_hash goal) /\
  (make_hash start = make_hash goal ->
   forall fuel,
     breadthFirst make_hash fuel start goal = Solution (new_root make_hash start) /\
     aStar make_hash fuel start goal = Solution (new_root make_hash start)).
Proof.
  repeat split.
  - intros p m ms q next H. simpl. rewrite H.
    apply make_next_state_child in H as (_ & -> & _). reflexivity.
  - intros p m ms q next H. simpl. rewrite H.
    apply make_next_state_child in H as (_ & -> & _). reflexivity.
  - destruct H as [H|H].
    + apply breadthFirst_solution in H as (Ht & _).
      eapply in_tree_hash; eassumption.
    + apply aStar_solution with (QS:=QS) in H as (Ht & _).
      eapply in_tree_hash; eassumption.
  - destruct H as [H|H].
    + apply breadthFirst_solution in H as (Ht & Hh & _).
      rewrite <- Hh. symmetry. eapply in_tree_hash; eassumption.
    + apply aStar_solution with (QS:=QS) in H as (Ht & Hh).
      rewrite <- Hh. symmetry. eapply in_tree_hash; eassumption.
  - unfold breadthFirst. simpl. rewrite H, Z.eqb_refl. reflexivity.
  - unfold aStar. simpl. rewrite H, Z.eqb_refl. reflexivity.
Qed.

Lemma C3_witness :
  breadthFirst additive_hash 0 start_main goal_main
  = Solution (new_root additive_hash start_main).
Proof.
  apply (C3_goal_test_by_hash additive_hash list_queue list_queue_spec zero_build
           start_main goal_main).
  reflexivity.
Defined.

(** C3 as worded fails: the successor of [start_q] is taken for [goal_q]
    on its hash, though its cells differ from the goal's. *)
Lemma C3_counterexample :
  ~ (forall (make_hash : Board -> Z) goal p ms q next,
       bfs_expand make_hash (make_hash goal) p ms q = Done (inl next) ->
       getState next = goal).
Proof.
  intros H.
  specialize (H nibble_hash goal_q (new_root nibble_hash start_q) moves []
                _ eq_refl).
  vm_compute in H. discriminate H.
Qed.

(** ** The cells of a board are kept *)

Section Cells.

Variable make_hash : Board -> Z.
Context {Q : PriorityQueue} {QS : PriorityQueueSpec Q} {B : Build}.
Variable start goal : Board.
Hypothesis start_valid : valid_board start.

Let tree := in_tree make_hash start.

Lemma in_tree_keeps_cells s : tree s -> chain_keeps_cells start s.
Proof.
  intros Hs t Ht.
  assert (Ht' : tree t) by (eapply in_tree_solution; eassumption).
  pose proof (in_tree_perm make_hash start t Ht') as Hp.
  split; [assumption|]. eapply valid_board_perm; eassumption.
Qed.

Lemma bfs_frontier_in_tree n goalHash q q' :
  Forall tree q -> bfs_frontier make_hash n goalHash q = Some q' ->
  Forall tree q'.
Proof.
  revert q. induction n as [|n IH]; simpl; intros q Hq.
  - intros [= <-]. assumption.
  - destruct (bfs_round make_hash goalHash q) as [v|q''] eqn:E; [discriminate|].
    apply IH. apply bfs_round_inr in E as (s & rest & -> & -> & _).
    apply Forall_app in Hq as [Hr Hs]. rewrite Forall_singleton in Hs.
    apply Forall_app. split; [|assumption].
    apply Forall_rev, Forall_forall. intros c Hc.
    eapply children_in_tree; eassumption.
Qed.

Lemma astar_frontier_in_tree n goalHash q q' :
  astar_invariant make_hash start q ->
  astar_frontier make_hash n goal goalHash q = Some q' ->
  astar_invariant make_hash start q'.
Proof.
  revert q. induction n as [|n IH]; simpl; intros q Hq.
  - intros [= <-]. assumption.
  - destruct (astar_round make_hash goal goalHash q) as [v|q''] eqn:E;
      [discriminate|].
    apply IH. eapply astar_invariant_round; eassumption.
Qed.

End Cells.

(** C9. From a valid board, a successor built by the move generator has
    the cells of its parent's board in another order, hence one agent; so
    has every board on the chain of every state of the tree, of every
    entry of either frontier, and of every returned state. *)
Theorem C9_cells_preserved (make_hash : Board -> Z)
    (Q : PriorityQueue) (QS : PriorityQueueSpec Q) (B : Build) start goal :
  valid_board start ->
  (forall s m next,
     valid_board (getState s) ->
     make_next_state make_hash s m = Done (Some next) ->
     getState next ≡ₚ getState s /\ valid_board (getState next)) /\
  (forall s, in_tree make_hash start s -> chain_keeps_cells start s) /\
  (forall n search,
     bfs_frontier make_hash n (make_hash goal) [new_root make_hash start]
       = Some search ->
     forall s, s ∈ search -> chain_keeps_cells start s) /\
  (forall n search,
     astar_frontier make_hash n goal (make_hash goal)
       (pq_push (with_score (new_root make_hash start) goal) pq_empty)
       = Some search ->
     forall x, x ∈ pq_elems search -> chain_keeps_cells start x.1) /\
  (forall fuel s,
     breadthFirst make_hash fuel start goal = Solution s \/
     aStar make_hash fuel start goal = Solution s ->
     chain_keeps_cells start s).
Proof.
  intros Hv. split; [|split; [|split; [|split]]].
  - intros s m next Hs H.
    apply make_next_state_child in H as (_ & _ & Hp & _).
    split; [assumption|]. eapply valid_board_perm; eassumption.
  - intros s Hs. apply (in_tree_keeps_cells make_hash); assumption.
  - intros n search H s Hs. apply (in_tree_keeps_cells make_hash); [assumption|].
    eapply bfs_frontier_in_tree in H.
    + rewrite Forall_forall in H. auto.
    + constructor; constructor.
  - intros n search H x Hx. apply (in_tree_keeps_cells make_hash); [assumption|].
    eapply astar_frontier_in_tree with (QS:=QS) in H.
    + unfold astar_invariant in H. rewrite Forall_forall in H. auto.
    + apply astar_invariant_start.
  - intros fuel s [H|H]; apply (in_tree_keeps_cells make_hash); try assumption.
    + apply breadthFirst_solution in H. tauto.
    + apply aStar_solution with (QS:=QS) in H. tauto.
Qed.

Lemma C9_witness :
  getState (row_step nibble_hash) ≡ₚ start_row /\
  valid_board (getState (row_step nibble_hash)).
Proof.
  destruct (C9_cells_preserved nibble_hash list_queue list_queue_spec zero_build
              start_row goal_row) as (_ & H & _); [split; reflexivity|].
  apply (H (row_step nibble_hash)); [|left].
  apply (in_tree_child nibble_hash start_row (new_root nibble_hash start_row)
           Move.RIGHT); [constructor|repeat constructor|reflexivity].
Defined.

(** ** Chains are short: the cycle check bounds the depth of the tree *)

Lemma list_ind2 {A} (P : list A -> Prop) :
  P [] -> (forall x, P [x]) -> (forall x y l, P l -> P (x :: y :: l)) ->
  forall l, P l.
Proof.
  intros H0 H1 H2 l.
  enough (P l /\ forall x, P (x :: l)) by tauto.
  induction l as [|y l [IH1 IH2]]; [auto|].
  split; [apply IH2|]. intros x. apply H2. assumption.
Qed.

Lemma evens_elem_of {A} (x : A) l : x ∈ evens l -> x ∈ l.
Proof.
  induction l as [|a|a b l IH] using list_ind2; simpl; [auto|auto|].
  intros [->|H]%elem_of_cons; [left|right; right; auto].
Qed.

Lemma evens_length {A} (l : list A) : (length l <= 2 * length (evens l))%nat.
Proof.
  induction l as [|a|a b l IH] using list_ind2; simpl in *; lia.
Qed.

Lemma spaced_tail x l : spaced (x :: l) -> spaced l.
Proof. inversion 1; [constructor|assumption]. Qed.

Lemma spaced_evens_NoDup l : spaced l -> NoDup (getHash <$> evens l).
Proof.
  induction l as [|a|a b l IH] using list_ind2; intros Hs.
  - constructor.
  - simpl. constructor; [apply not_elem_of_nil|constructor].
  - inversion Hs as [| |x y l' HF Hs']; subst.
    change (evens (a :: b :: l)) with (a :: evens l). rewrite fmap_cons.
    constructor.
    + intros (t & Ht & Hin)%list_elem_of_fmap.
      apply evens_elem_of in Hin. rewrite Forall_forall in HF.
      apply (HF t Hin). congruence.
    + apply IH. eapply spaced_tail. eassumption.
Qed.

Lemma arrangements_spec (b b' : Board) : b' ∈ arrangements b <-> b' ≡ₚ b.
Proof.
  unfold arrangements. rewrite elem_of_remove_dups.
  rewrite permutations_Permutation. split; intros H; symmetry; exact H.
Qed.

Lemma arrangements_NoDup (b : Board) : NoDup (arrangements b).
Proof. apply NoDup_remove_dups. Qed.

Lemma elem_of_inserts x (k1 k2 : list ascii) :
  k1 ++ x :: k2 ∈ inserts x (k1 ++ k2).
Proof.
  unfold inserts. apply list_elem_of_In, in_map_iff. exists (length k1). split.
  - rewrite take_app_length, drop_app_length. reflexivity.
  - apply in_seq. rewrite length_app. lia.
Qed.

Lemma inserts_perm x (l b : list ascii) : b ∈ inserts x l -> b ≡ₚ x :: l.
Proof.
  unfold inserts. intros H.
  apply list_elem_of_In, in_map_iff in H as (i & <- & _).
  rewrite <- Permutation_middle, take_drop. reflexivity.
Qed.

Lemma one_placed_spec b : b ∈ one_placed <-> b ≡ₚ start_alone.
Proof.
  unfold one_placed. split.
  - apply inserts_perm.
  - intros Hp. change start_alone with (agent :: replicate 15 " "%char) in Hp.
    apply Permutation_cons_inv_r in Hp as (k1 & k2 & -> & Hp).
    apply replicate_Permutation in Hp. rewrite Hp. apply elem_of_inserts.
Qed.

Lemma two_placed_spec b : b ∈ two_placed <-> b ≡ₚ start_column.
Proof.
  unfold two_placed. rewrite list_elem_of_bind. split.
  - intros (l & Hb & Hl). apply inserts_perm in Hb, Hl. rewrite Hb, Hl.
    reflexivity.
  - intros Hp.
    change start_column with (agent :: "a"%char :: replicate 14 " "%char) in Hp.
    apply Permutation_cons_inv_r in Hp as (k1 & k2 & -> & Hp).
    symmetry in Hp.
    apply Permutation_cons_inv_r in Hp as (m1 & m2 & E & Hp).
    apply replicate_Permutation in Hp.
    exists (k1 ++ k2). split; [apply elem_of_inserts|].
    rewrite E, Hp. apply elem_of_inserts.
Qed.

(** The agent alone has 16 places to be in; the agent and one label have
    240. *)
Lemma arrangements_start_alone : length (arrangements start_alone) = 16%nat.
Proof.
  change 16%nat with (length one_placed).
  apply Permutation_length, NoDup_Permutation.
  - apply arrangements_NoDup.
  - apply (bool_decide_unpack _). vm_compute. exact I.
  - intros b. rewrite arrangements_spec, one_placed_spec. reflexivity.
Qed.

Lemma arrangements_start_column : length (arrangements start_column) = 240%nat.
Proof.
  change 240%nat with (length two_placed).
  apply Permutation_length, NoDup_Permutation.
  - apply arrangements_NoDup.
  - apply (bool_decide_unpack _). vm_compute. exact I.
  - intros b. rewrite arrangements_spec, two_placed_spec. reflexivity.
Qed.

Section DepthBound.

Variable make_hash : Board -> Z.
Variable start : Board.

Let tree := in_tree make_hash start.

Lemma in_tree_spaced s : tree s -> spaced (solution s).
Proof.
  induction 1 as [|p m next Hp IH Hm H]; [constructor|].
  pose proof (make_next_state_child _ _ _ _ H) as (_ & _ & _ & _ & E).
  apply make_next_state_inv in H as (b' & _ & Hc & ->).
  unfold solution in *. rewrite E. constructor; [|assumption].
  apply Forall_forall. intros a Ha Heq. simpl in Heq.
  assert (cyclic p (make_hash b') = true); [|congruence].
  apply cyclic_spec. eauto.
Qed.

Lemma solution_length (s : PuzzleState) : length (solution s) = S (depth s).
Proof.
  unfold solution. simpl. f_equal.
  induction s as [|h b p IH]; simpl; [reflexivity|]. f_equal. assumption.
Qed.

(** No chain of the tree is longer than twice the number of ways to
    arrange the cells of the start board. *)
Lemma in_tree_depth_bound s :
  tree s -> (S (depth s) <= 2 * length (arrangements start))%nat.
Proof.
  intros Hs. rewrite <- solution_length.
  etransitivity; [apply evens_length|].
  apply Nat.mul_le_mono_l.
  assert (Ht : forall t, t ∈ evens (solution s) -> tree t).
  { intros t Ht. eapply in_tree_solution; [eassumption|].
    apply evens_elem_of. assumption. }
  assert (Hn : NoDup (getState <$> evens (solution s))).
  { apply (NoDup_fmap_1 make_hash). rewrite <- list_fmap_compose.
    erewrite list_fmap_ext; [apply spaced_evens_NoDup, in_tree_spaced, Hs|].
    intros i t Hi. simpl. symmetry. apply (in_tree_hash make_hash start).
    apply Ht. eapply list_elem_of_lookup_2. eassumption. }
  rewrite <- (length_fmap getState).
  apply submseteq_length, NoDup_submseteq; [assumption|].
  intros b (t & -> & Hin)%list_elem_of_fmap.
  apply arrangements_spec.
  apply (in_tree_perm make_hash). apply Ht. assumption.
Qed.

End DepthBound.

(** ** Both searches end *)

Lemma weight_pos r : (1 <= weight r)%nat.
Proof. destruct r; simpl; lia. Qed.

Lemma sum_list_with_same {A} (f : A -> nat) n l :
  Forall (fun x => f x = n) l -> sum_list_with f l = (length l * n)%nat.
Proof.
  induction 1 as [|x l Hx _ IH]; simpl; [reflexivity|]. rewrite Hx, IH. lia.
Qed.

Lemma children_length make_hash p ms :
  (length (children make_hash p ms) <= length ms)%nat.
Proof.
  induction ms as [|m ms IH]; simpl; [lia|].
  destruct (make_next_state make_hash p m) as [|[c|]]; simpl; lia.
Qed.

Lemma fst_scored {B : Build} (goal : Board) (cs : list PuzzleState) :
  (map (fun c => with_score c goal) cs).*1 = cs.
Proof.
  induction cs as [|c cs IH]; simpl; [reflexivity|]. f_equal. assumption.
Qed.

Section Termination.

Variable make_hash : Board -> Z.
Variable start : Board.
Variable D : nat.
Hypothesis start_valid : valid_board start.
Hypothesis depth_bound :
  forall s, in_tree make_hash start s -> (S (depth s) <= D)%nat.

Let tree := in_tree make_hash start.

Lemma in_tree_valid s : tree s -> valid_board (getState s).
Proof.
  intros Hs. eapply valid_board_perm; [|eassumption].
  apply (in_tree_perm make_hash). assumption.
Qed.

(** Expanding a state trades its weight for less. *)
Lemma children_weight p :
  tree p ->
  (frontier_weight D (children make_hash p moves) + 1
   <= weight (D - S (depth p)))%nat.
Proof.
  intros Hp. unfold frontier_weight.
  destruct (children make_hash p moves) as [|c cs] eqn:E.
  - simpl. apply weight_pos.
  - assert (Hc : c ∈ children make_hash p moves) by (rewrite E; left).
    pose proof (children_depth _ _ _ _ Hc) as Hd.
    pose proof (depth_bound c (children_in_tree _ _ _ _ Hp Hc)) as Hb.
    rewrite <- E.
    rewrite (sum_list_with_same _ (weight (D - S (S (depth p))))).
    + replace (D - S (depth p))%nat with (S (D - S (S (depth p)))) by lia.
      simpl weight.
      pose proof (children_length make_hash p moves) as Hl.
      change (length moves) with 4%nat in Hl.
      pose proof (Nat.mul_le_mono_r _ _ (weight (D - S (S (depth p)))) Hl).
      lia.
    + apply Forall_forall. intros x Hx.
      rewrite (children_depth _ _ _ _ Hx). reflexivity.
Qed.

Lemma bfs_loop_ends goalHash fuel q :
  Forall tree q -> (frontier_weight D q < fuel)%nat ->
  bfs_loop make_hash fuel goalHash q <> Unfinished /\
  bfs_loop make_hash fuel goalHash q <> Undefined.
Proof.
  revert q. induction fuel as [|fuel IH]; intros q Hq Hw; [lia|]. simpl.
  assert (Hv : Forall (fun s => valid_board (getState s)) q).
  { eapply Forall_impl; [eassumption|]. apply in_tree_valid. }
  destruct (bfs_round_defined make_hash goalHash q Hv) as [H1 H2].
  destruct (bfs_round make_hash goalHash q) as [v|q'] eqn:E.
  - split; congruence.
  - apply bfs_round_inr in E as (s & rest & -> & -> & _).
    apply Forall_app in Hq as [Hr Hs]. rewrite Forall_singleton in Hs.
    pose proof (children_weight s Hs) as Hcw.
    unfold frontier_weight in *.
    rewrite sum_list_with_app in Hw. simpl in Hw.
    apply IH.
    + apply Forall_app. split; [|assumption].
      apply Forall_rev, Forall_forall. intros c Hc.
      eapply children_in_tree; eassumption.
    + rewrite sum_list_with_app.
      rewrite <- (sum_list_with_Permutation_proper _ _ _
                    (Permutation_rev (children make_hash s moves))).
      lia.
Qed.

Context {Q : PriorityQueue} {QS : PriorityQueueSpec Q} {B : Build}.

Lemma astar_loop_ends goal goalHash fuel (q : pq) :
  astar_invariant make_hash start q ->
  (frontier_weight D (pq_elems q).*1 < fuel)%nat ->
  astar_loop make_hash fuel goal goalHash q <> Unfinished /\
  astar_loop make_hash fuel goal goalHash q <> Undefined.
Proof.
  revert q. induction fuel as [|fuel IH]; intros q Hq Hw; [lia|]. simpl.
  assert (Hv : Forall (fun x => valid_board (getState x.1)) (pq_elems q)).
  { eapply Forall_impl; [exact Hq|]. intros x. apply in_tree_valid. }
  destruct (astar_round_defined make_hash goal goalHash q Hv) as [H1 H2].
  destruct (astar_round make_hash goal goalHash q) as [v|q'] eqn:E.
  - split; congruence.
  - assert (Hq' : astar_invariant make_hash start q')
      by (eapply astar_invariant_round; eassumption).
    apply astar_round_inr with (QS:=QS) in E as (best & rest & _ & Hp & Hp' & _).
    unfold astar_invariant in Hq. rewrite Hp in Hq.
    apply Forall_cons in Hq as [Hb _].
    pose proof (children_weight best.1 Hb) as Hcw.
    apply IH; [assumption|].
    unfold frontier_weight in *. rewrite Hp in Hw. rewrite Hp'.
    rewrite fmap_app, sum_list_with_app.
    rewrite fmap_cons in Hw. simpl in Hw.
    rewrite fst_scored. lia.
Qed.

End Termination.

(** ** Breadth-first search finds a shortest way *)

Lemma reach_front a b n c : one_move a b -> reach b n c -> reach a (S n) c.
Proof.
  intros Hab. induction 1 as [|n x y _ IH Hxy].
  - econstructor; [constructor|assumption].
  - econstructor; eassumption.
Qed.

Lemma reach_run_moves ms start b :
  Forall (fun m => m ∈ moves) ms -> run_moves start ms = Some b ->
  reach start (length ms) b.
Proof.
  revert start. induction ms as [|m ms IH]; simpl; intros start Hms.
  - intros [= <-]. constructor.
  - apply Forall_cons in Hms as [Hm Hms].
    destruct (next_board start m) as [|[b'|]] eqn:E; try discriminate.
    intros H. eapply reach_front; [|apply IH; eassumption].
    exists m. split; assumption.
Qed.

Section Shortest.

Variable make_hash : Board -> Z.
Variable start goal : Board.
Hypothesis no_collision : collision_free make_hash (search_boards start goal).

Let tree := in_tree make_hash start.

(** Without collisions the tree holds every board that can be reached, no
    deeper than the moves it takes. *)
Lemma reach_in_tree n b :
  reach start n b ->
  exists t, tree t /\ getState t = b /\ (depth t <= n)%nat.
Proof.
  induction 1 as [|n b b' Hr (t & Ht & <- & Hd) (m & Hm & Hb)].
  - exists (new_root make_hash start). split; [constructor|]. split; [reflexivity|].
    simpl. lia.
  - destruct (cyclic t (make_hash b')) eqn:C.
    + apply cyclic_spec in C as (a & Ha & Hh).
      assert (Hta : tree a) by (eapply in_tree_ancestors; eassumption).
      exists a. split; [assumption|].
      pose proof (ancestors_depth _ _ Ha) as Hlt.
      split; [|lia]. symmetry. apply no_collision.
      * left. rewrite (next_board_perm _ _ _ Hb).
        apply (in_tree_perm make_hash). assumption.
      * left. apply (in_tree_perm make_hash). assumption.
      * rewrite Hh. apply (in_tree_hash make_hash start). assumption.
    + exists (new_child make_hash t b').
      split; [|split; [reflexivity|simpl; lia]].
      apply (in_tree_child make_hash start t m); [assumption|assumption|].
      unfold make_next_state. rewrite Hb. simpl. rewrite C. reflexivity.
Qed.

End Shortest.

(** C1, as the code has it. When the hash has no collision among the goal
    and the rearrangements of the start board, a state returned by
    [breadthFirst] carries the goal board and its number of predecessor
    links is the least number of moves from start to goal. *)
Theorem C1_breadth_first_shortest (make_hash : Board -> Z) start goal fuel s :
  collision_free make_hash (search_boards start goal) ->
  breadthFirst make_hash fuel start goal = Solution s ->
  getState s = goal /\ min_moves start goal (depth s).
Proof.
  intros Hcf H. apply breadthFirst_solution in H as (Ht & Hh & Hmin).
  pose proof (in_tree_perm _ _ _ Ht) as Hp.
  assert (Hg : getState s = goal).
  { apply Hcf; [left; assumption|right; reflexivity|].
    rewrite <- Hh. symmetry. eapply in_tree_hash. eassumption. }
  split; [assumption|]. split.
  - rewrite <- Hg. eapply in_tree_reach. eassumption.
  - intros k Hk.
    destruct (reach_in_tree make_hash start goal Hcf k goal Hk)
      as (t & Htt & Hgt & Hd).
    etransitivity; [apply (Hmin t Htt)|assumption].
    rewrite (in_tree_hash _ _ _ Htt), Hgt. reflexivity.
Qed.

Lemma C1_witness :
  exists s,
    breadthFirst nibble_hash 100 start_row goal_row = Solution s /\
    getState s = goal_row /\ min_moves start_row goal_row (depth s).
Proof.
  eexists. split; [vm_compute; reflexivity|].
  apply (C1_breadth_first_shortest nibble_hash start_row goal_row 100).
  - apply nibble_hash_collision_free; [reflexivity| |]; sample_cells.
  - vm_compute. reflexivity.
Defined.

(** C1 as worded fails: with one collision between a board and the board
    two links up its chain, the clockwise way of five moves is cut and
    [breadthFirst] returns the goal board at the end of seven moves. *)
Lemma C1_counterexample :
  ~ (forall (make_hash : Board -> Z) fuel start goal s,
       valid_board start -> valid_board goal ->
       breadthFirst make_hash fuel start goal = Solution s ->
       getState s = goal -> min_moves start goal (depth s)).
Proof.
  intros H.
  assert (E : exists s,
             breadthFirst biased_hash 1000 corner_start corner_goal = Solution s /\
             getState s = corner_goal /\ depth s = 7%nat).
  { vm_compute. eexists. repeat split. }
  destruct E as (s & E & Hg & Hd).
  destruct (H biased_hash 1000%nat corner_start corner_goal s) as [_ Hmin];
    [split; reflexivity|split; reflexivity|assumption|assumption|].
  assert (Hr : reach corner_start 5 corner_goal).
  { apply (reach_run_moves
             [Move.RIGHT; Move.DOWN; Move.LEFT; Move.UP; Move.RIGHT]).
    - repeat constructor.
    - reflexivity. }
  specialize (Hmin 5%nat Hr). rewrite Hd in Hmin. lia.
Qed.

(** * Further properties of the code *)

(** ** A board without the agent *)

Lemma next_board_no_agent b :
  length b = 16%nat -> ~ In agent b ->
  next_board b Move.LEFT = Done None /\
  next_board b Move.UP = Fault /\
  next_board b Move.RIGHT = Fault /\
  next_board b Move.DOWN = Fault.
Proof.
  intros Hl Hn.
  pose proof (find_index_absent agent b Hn) as Hf. rewrite Hl in Hf.
  assert (Hout : b !! 16%nat = None) by (apply lookup_ge_None; lia).
  unfold next_board, swap_cells. rewrite Hf, Hout.
  repeat split; reflexivity.
Qed.

(** X1. On a sixteen-cell board that holds no agent, [std::find] returns
    the end of the array: a move to the left is answered with none, and
    the three other moves swap with [state[16]], outside the array,
    before any hash is looked at. *)
Theorem X1_no_agent (make_hash : Board -> Z) s :
  length (getState s) = 16%nat -> ~ In agent (getState s) ->
  find_index agent (getState s) = 16%nat /\
  make_next_state make_hash s Move.LEFT = Done None /\
  make_next_state make_hash s Move.UP = Fault /\
  make_next_state make_hash s Move.RIGHT = Fault /\
  make_next_state make_hash s Move.DOWN = Fault.
Proof.
  intros Hl Hn.
  destruct (next_board_no_agent _ Hl Hn) as (H1 & H2 & H3 & H4).
  split; [rewrite <- Hl; apply find_index_absent; assumption|].
  unfold make_next_state. rewrite H1, H2, H3, H4. repeat split.
Qed.

Lemma X1_witness :
  find_index agent (getState (new_root nibble_hash no_agent_board)) = 16%nat /\
  make_next_state nibble_hash (new_root nibble_hash no_agent_board) Move.LEFT
    = Done None /\
  make_next_state nibble_hash (new_root nibble_hash no_agent_board) Move.UP
    = Fault /\
  make_next_state nibble_hash (new_root nibble_hash no_agent_board) Move.RIGHT
    = Fault /\
  make_next_state nibble_hash (new_root nibble_hash no_agent_board) Move.DOWN
    = Fault.
Proof.
  apply (X1_no_agent nibble_hash (new_root nibble_hash no_agent_board)).
  - reflexivity.
  - vm_compute. intuition discriminate.
Defined.

(** ** Taking a move back *)

Lemma agent_unique b k :
  count_occ ascii_dec b agent = 1%nat -> b !! k = Some agent ->
  k = find_index agent b.
Proof.
  revert k. induction b as [|x b IH]; intros k Hc Hk; [discriminate|].
  simpl in Hc. simpl. destruct (ascii_dec x agent) as [->|Hne].
  - rewrite Ascii.eqb_refl. destruct k as [|k]; [reflexivity|].
    exfalso. simpl in Hk. injection Hc as Hc.
    apply (count_occ_not_In ascii_dec) in Hc. apply Hc.
    apply list_elem_of_In. eapply list_elem_of_lookup_2. eassumption.
  - apply Ascii.eqb_neq in Hne as Hb. rewrite Hb.
    destruct k as [|k]; simpl in Hk; [congruence|].
    f_equal. apply IH; assumption.
Qed.

Lemma new_index_opposite i m j :
  (i < 16)%nat -> new_index i m = Done (Some j) ->
  new_index j (opposite m) = Done (Some i).
Proof.
  intros Hi H. first_sixteen i; destruct m; vm_compute in H;
    try discriminate; injection H as <-; reflexivity.
Qed.

Lemma swapped_back b i j b' b'' :
  swapped b i j b' -> swapped b' j i b'' -> b'' = b.
Proof.
  intros [Hl1 H1] [Hl2 H2]. apply list_eq. intros k.
  rewrite H2, H1.
  repeat (case_decide; subst; try congruence).
Qed.

Lemma next_board_agent b m b' :
  valid_board b -> next_board b m = Done (Some b') ->
  exists j, new_index (find_index agent b) m = Done (Some j) /\
            swapped b (find_index agent b) j b' /\
            find_index agent b' = j /\ b' <> b.
Proof.
  intros Hv H. pose proof (next_board_perm _ _ _ H) as Hp.
  destruct (valid_board_index b Hv) as [Hi Ha].
  unfold next_board in H.
  destruct (new_index _ m) as [|[j|]] eqn:E; try discriminate.
  destruct (swap_cells _ _ _) as [|b''] eqn:Es; [discriminate|].
  injection H as <-. exists j. split; [reflexivity|].
  pose proof (swap_cells_swapped _ _ _ _ Es) as Hs. split; [assumption|].
  pose proof (new_index_differs _ _ _ E) as Hne.
  assert (Hj : b'' !! j = Some agent).
  { destruct Hs as [_ Hs]. rewrite Hs.
    destruct (decide (j = find_index agent b)); [congruence|].
    rewrite decide_True by reflexivity. assumption. }
  split.
  - symmetry. apply agent_unique; [|assumption].
    apply (valid_board_perm _ _ Hp Hv).
  - intros ->. apply Hne. apply agent_unique; [apply Hv|assumption].
Qed.

Lemma next_board_undo b m b' :
  valid_board b -> next_board b m = Done (Some b') ->
  next_board b' (opposite m) = Done (Some b).
Proof.
  intros Hv H. pose proof (next_board_perm _ _ _ H) as Hp.
  pose proof (valid_board_perm _ _ Hp Hv) as Hv'.
  destruct (next_board_agent _ _ _ Hv H) as (j & E & Hs & Hf & _).
  destruct (valid_board_index b Hv) as [Hi _].
  pose proof (new_index_in_range _ _ _ Hi E) as Hj.
  unfold next_board. rewrite Hf, (new_index_opposite _ _ _ Hi E).
  destruct (swap_cells_in_range b' j (find_index agent b)) as [b'' Es].
  - destruct Hv' as [-> _]. assumption.
  - destruct Hv' as [-> _]. assumption.
  - rewrite Es. do 2 f_equal.
    eapply swapped_back; [eassumption|].
    apply swap_cells_swapped. assumption.
Qed.

(** X2. On a valid board a move that stays on the grid changes the board,
    leaves it valid, and is taken back by the opposite move. *)
Theorem X2_move_and_back b m b' :
  valid_board b -> next_board b m = Done (Some b') ->
  b' <> b /\ valid_board b' /\
  next_board b' (opposite m) = Done (Some b).
Proof.
  intros Hv H. split; [|split].
  - destruct (next_board_agent _ _ _ Hv H) as (_ & _ & _ & _ & Hne).
    assumption.
  - eapply valid_board_perm; [|eassumption].
    eapply next_board_perm. eassumption.
  - apply next_board_undo; assumption.
Qed.

Lemma X2_witness :
  board_of "a*bc            " <> start_row /\
  valid_board (board_of "a*bc            ") /\
  next_board (board_of "a*bc            ") (opposite Move.RIGHT)
  = Done (Some start_row).
Proof.
  apply (X2_move_and_back start_row Move.RIGHT).
  - split; reflexivity.
  - reflexivity.
Defined.

(** X3. A move is never taken back at once: for a state with a valid
    board whose cached hash is the hash of its board, the opposite of the
    move that made a successor is rejected from that successor, because
    the walk meets the state itself. *)
Theorem X3_no_immediate_undo (make_hash : Board -> Z) p m c :
  valid_board (getState p) -> getHash p = make_hash (getState p) ->
  make_next_state make_hash p m = Done (Some c) ->
  make_next_state make_hash c (opposite m) = Done None.
Proof.
  intros Hv Hh H. apply make_next_state_inv in H as (b' & Hb & _ & ->).
  unfold make_next_state. simpl getState.
  rewrite (next_board_undo _ _ _ Hv Hb). simpl.
  unfold cyclic. simpl.
  assert (E : hash_on_chain (make_hash (getState p)) p = true).
  { apply hash_on_chain_spec. exists p. split; [left|congruence]. }
  rewrite E. reflexivity.
Qed.

Lemma X3_witness :
  make_next_state nibble_hash (row_step nibble_hash) (opposite Move.RIGHT)
  = Done None.
Proof.
  apply (X3_no_immediate_undo nibble_hash (new_root nibble_hash start_row)
           Move.RIGHT (row_step nibble_hash)).
  - split; reflexivity.
  - reflexivity.
  - reflexivity.
Defined.

(** ** No board twice on a chain *)

Section Chains.

Variable make_hash : Board -> Z.
Variable start : Board.
Hypothesis start_valid : valid_board start.

Let tree := in_tree make_hash start.

Lemma in_tree_boards_NoDup s : tree s -> NoDup (getState <$> solution s).
Proof.
  induction 1 as [|p m next Hp IH Hm H].
  - simpl. constructor; [apply not_elem_of_nil|constructor].
  - pose proof (make_next_state_child _ _ _ _ H) as (_ & _ & _ & _ & E).
    apply make_next_state_inv in H as (b' & Hb & Hc & ->).
    unfold solution in *. rewrite E. rewrite fmap_cons. simpl getState.
    constructor; [|assumption].
    intros (t & Ht & Hin)%list_elem_of_fmap.
    apply elem_of_cons in Hin as [->|Hin].
    + assert (Hv : valid_board (getState p))
        by (apply (in_tree_valid make_hash start); assumption).
      destruct (next_board_agent _ _ _ Hv Hb) as (_ & _ & _ & _ & Hne).
      congruence.
    + assert (cyclic p (make_hash b') = true); [|congruence].
      apply cyclic_spec. exists t. split; [assumption|].
      rewrite Ht. symmetry. apply (in_tree_hash make_hash start).
      eapply in_tree_ancestors; eassumption.
Qed.

Lemma in_tree_chain_short s :
  tree s -> (S (depth s) <= length (arrangements start))%nat.
Proof.
  intros Hs. rewrite <- solution_length, <- (length_fmap getState).
  apply submseteq_length, NoDup_submseteq; [apply in_tree_boards_NoDup, Hs|].
  intros b (t & -> & Hin)%list_elem_of_fmap.
  apply arrangements_spec.
  apply (in_tree_perm make_hash). eapply in_tree_solution; eassumption.
Qed.

End Chains.

(** X4. From a valid start board, the sequence rebuilt from a state that
    either searcher returns shows no board twice, whatever the hash; so it
    is no longer than the number of arrangements of the start board, the
    different boards that hold its cells. *)
Theorem X4_no_board_twice (make_hash : Board -> Z)
    (Q : PriorityQueue) (QS : PriorityQueueSpec Q) (B : Build)
    start goal fuel s :
  valid_board start ->
  breadthFirst make_hash fuel start goal = Solution s \/
  aStar make_hash fuel start goal = Solution s ->
  NoDup (reconstruct (Some s)) /\
  (length (reconstruct (Some s)) <= length (arrangements start))%nat.
Proof.
  intros Hv H.
  assert (Ht : in_tree make_hash start s).
  { destruct H as [H|H].
    - apply breadthFirst_solution in H. tauto.
    - apply aStar_solution with (QS:=QS) in H. tauto. }
  unfold reconstruct. split.
  - rewrite <- Permutation_rev.
    apply (in_tree_boards_NoDup make_hash start Hv s Ht).
  - rewrite length_rev, length_map, solution_length.
    apply (in_tree_chain_short make_hash start Hv s Ht).
Qed.

Lemma X4_witness :
  length (arrangements start_column) = 240%nat /\
  exists s,
    aStar nibble_hash (Q:=list_queue) (B:=zero_build) 200
      start_column goal_column = Solution s /\
    NoDup (reconstruct (Some s)) /\
    (length (reconstruct (Some s)) <= 240)%nat.
Proof.
  split; [apply arrangements_start_column|].
  eexists. split; [vm_compute; reflexivity|].
  rewrite <- arrangements_start_column.
  apply (X4_no_board_twice nibble_hash list_queue list_queue_spec zero_build
           start_column goal_column 200).
  - split; reflexivity.
  - right. vm_compute. reflexivity.
Defined.

(** ** Faults *)

Section Faults.

Variable make_hash : Board -> Z.
Context {Q : PriorityQueue} {QS : PriorityQueueSpec Q} {B : Build}.
Variable start goal : Board.

Let tree := in_tree make_hash start.

Lemma bfs_loop_defined goalHash fuel q :
  valid_board start -> Forall tree q ->
  bfs_loop make_hash fuel goalHash q <> Undefined.
Proof.
  intros Hv. revert q. induction fuel as [|fuel IH]; intros q Hq;
    [discriminate|]. simpl.
  assert (Hvq : Forall (fun s => valid_board (getState s)) q).
  { eapply Forall_impl; [eassumption|].
    intros s Hs. eapply valid_board_perm; [|eassumption].
    apply (in_tree_perm make_hash). assumption. }
  destruct (bfs_round_defined make_hash goalHash q Hvq) as [H1 _].
  destruct (bfs_round make_hash goalHash q) as [v|q'] eqn:E; [congruence|].
  apply IH. apply bfs_round_inr in E as (s & rest & -> & -> & _).
  apply Forall_app in Hq as [Hr Hs]. rewrite Forall_singleton in Hs.
  apply Forall_app. split; [|assumption].
  apply Forall_rev, Forall_forall. intros c Hc.
  eapply children_in_tree; eassumption.
Qed.

Lemma astar_loop_defined goalHash fuel (q : pq) :
  valid_board start -> astar_invariant make_hash start q ->
  astar_loop make_hash fuel goal goalHash q <> Undefined.
Proof.
  intros Hv. revert q. induction fuel as [|fuel IH]; intros q Hq;
    [discriminate|]. simpl.
  assert (Hvq : Forall (fun x => valid_board (getState x.1)) (pq_elems q)).
  { eapply Forall_impl; [exact Hq|].
    intros x Hx. eapply valid_board_perm; [|eassumption].
    apply (in_tree_perm make_hash). assumption. }
  destruct (astar_round_defined make_hash goal goalHash q Hvq) as [H1 _].
  destruct (astar_round make_hash goal goalHash q) as [v|q'] eqn:E;
    [congruence|].
  apply IH. eapply astar_invariant_round; eassumption.
Qed.

Lemma pq_pop_singleton (x : PuzzleAndScore) :
  exists rest, pq_pop (pq_push x pq_empty) = Some (x, rest).
Proof.
  pose proof (pq_elems_push x pq_empty) as Hp. rewrite pq_elems_empty in Hp.
  destruct (pq_pop (pq_push x pq_empty)) as [[best rest]|] eqn:E.
  - apply pq_pop_Some in E. rewrite E in Hp.
    apply Permutation_singleton_r in Hp. injection Hp as -> _. eauto.
  - apply pq_pop_None in E. rewrite E in Hp.
    apply Permutation_nil_l in Hp. discriminate.
Qed.

End Faults.

(** ** Searching for a goal that cannot be reached *)

(** C7, as the code has it. Memory is not bounded in the model: [new] and
    the containers always succeed, and a run on which an allocation fails
    is cut short where the model goes on. From a valid start board and
    whatever the hash:
    - no branch of the search tree holds more than twice as many states
      as the start board has arrangements, so the tree is finite;
    - both searches have come to their end once enough rounds are
      allowed;
    - however many rounds a search has run, it has not read outside a
      board, and for a goal that cannot be reached, with a hash that no
      board that can be reached shares, it has not returned a state: the
      end it comes to is the no-solution result. *)
Theorem C7_searches_end (make_hash : Board -> Z)
    (Q : PriorityQueue) (QS : PriorityQueueSpec Q) (B : Build) start goal :
  valid_board start ->
  (forall s, in_tree make_hash start s ->
     (S (depth s) <= 2 * length (arrangements start))%nat) /\
  (exists fuel, forall fuel', (fuel <= fuel')%nat ->
     breadthFirst make_hash fuel' start goal <> Unfinished /\
     aStar make_hash fuel' start goal <> Unfinished) /\
  (forall fuel,
     breadthFirst make_hash fuel start goal <> Undefined /\
     aStar make_hash fuel start goal <> Undefined) /\
  (~ reachable start goal ->
   (forall b, reachable start b -> make_hash b <> make_hash goal) ->
   (forall fuel s,
      breadthFirst make_hash fuel start goal <> Solution s /\
      aStar make_hash fuel start goal <> Solution s) /\
   exists fuel, forall fuel', (fuel <= fuel')%nat ->
     breadthFirst make_hash fuel' start goal = NoSolution /\
     aStar make_hash fuel' start goal = NoSolution).
Proof.
  intros Hv.
  set (D := (2 * length (arrangements start))%nat).
  assert (HD : forall s, in_tree make_hash start s -> (S (depth s) <= D)%nat)
    by apply in_tree_depth_bound.
  assert (Hend : forall fuel, (S (weight (D - 1)) <= fuel)%nat ->
            breadthFirst make_hash fuel start goal <> Unfinished /\
            aStar make_hash fuel start goal <> Unfinished).
  { intros fuel Hf. split.
    - unfold breadthFirst. simpl.
      destruct (make_hash start =? make_hash goal); [discriminate|].
      apply (bfs_loop_ends make_hash start D Hv HD).
      + constructor; constructor.
      + unfold frontier_weight. simpl. lia.
    - unfold aStar. simpl.
      destruct (make_hash start =? make_hash goal); [discriminate|].
      apply (astar_loop_ends make_hash start D Hv HD (QS:=QS)).
      + apply astar_invariant_start.
      + unfold frontier_weight. rewrite pq_elems_push, pq_elems_empty.
        simpl. lia. }
  assert (Hdef : forall fuel,
            breadthFirst make_hash fuel start goal <> Undefined /\
            aStar make_hash fuel start goal <> Undefined).
  { intros fuel. split.
    - unfold breadthFirst. simpl.
      destruct (make_hash start =? make_hash goal); [discriminate|].
      apply (bfs_loop_defined make_hash start); [assumption|].
      constructor; constructor.
    - unfold aStar. simpl.
      destruct (make_hash start =? make_hash goal); [discriminate|].
      apply (astar_loop_defined make_hash (QS:=QS) start); [assumption|].
      apply astar_invariant_start. }
  split; [exact HD|]. split; [eauto|]. split; [exact Hdef|].
  intros _ Hh.
  assert (Hno : forall s, in_tree make_hash start s ->
                          getHash s <> make_hash goal).
  { intros s Hs. rewrite (in_tree_hash _ _ _ Hs). apply Hh.
    exists (depth s). apply (in_tree_reach make_hash). assumption. }
  assert (Hsol : forall fuel s,
            breadthFirst make_hash fuel start goal <> Solution s /\
            aStar make_hash fuel start goal <> Solution s).
  { intros fuel s. split; intros E.
    - apply breadthFirst_solution in E as (Ht & Hg & _).
      eapply Hno; eassumption.
    - apply aStar_solution with (QS:=QS) in E as (Ht & Hg).
      eapply Hno; eassumption. }
  split; [exact Hsol|].
  exists (S (weight (D - 1))). intros fuel Hf.
  destruct (Hend fuel Hf) as [Eb Ea]. destruct (Hdef fuel) as [Db Da].
  split.
  - destruct (breadthFirst make_hash fuel start goal) as [| | |s] eqn:E;
      [congruence|congruence|reflexivity|].
    exfalso. eapply (proj1 (Hsol fuel s)). exact E.
  - destruct (aStar make_hash fuel start goal) as [| | |s] eqn:E;
      [congruence|congruence|reflexivity|].
    exfalso. eapply (proj2 (Hsol fuel s)). exact E.
Qed.

Lemma goal_labels_not_rearranged : ~ goal_labels ≡ₚ start_alone.
Proof.
  intros Hp. assert (H : "b"%char ∈ start_alone).
  { rewrite <- Hp. unfold goal_labels, board_of. simpl. right. left. }
  unfold start_alone, board_of in H. simpl in H.
  repeat (apply elem_of_cons in H as [H|H]; [discriminate H|]).
  by apply elem_of_nil in H.
Qed.

(** The agent alone on the board: the states of the search tree are the
    2111 ways the agent can walk from its corner without entering a cell
    twice. Each is expanded in a round of its own, and the round after
    the last finds the container empty. *)
Lemma C7_witness :
  (forall s, in_tree nibble_hash start_alone s -> (S (depth s) <= 32)%nat) /\
  (exists fuel,
     breadthFirst nibble_hash fuel start_alone goal_labels = NoSolution /\
     aStar nibble_hash (Q:=list_queue) (B:=zero_build) fuel
       start_alone goal_labels = NoSolution) /\
  breadthFirst nibble_hash 2111 start_alone goal_labels = Unfinished /\
  breadthFirst nibble_hash 2112 start_alone goal_labels = NoSolution /\
  aStar nibble_hash (Q:=list_queue) (B:=zero_build) 2111
    start_alone goal_labels = Unfinished /\
  aStar nibble_hash (Q:=list_queue) (B:=zero_build) 2112
    start_alone goal_labels = NoSolution.
Proof.
  destruct (C7_searches_end nibble_hash list_queue list_queue_spec zero_build
              start_alone goal_labels) as (HD & _ & _ & H);
    [split; reflexivity|].
  rewrite arrangements_start_alone in HD.
  split; [exact HD|].
  split; [|split; [|split; [|split]]; vm_compute; reflexivity].
  destruct H as [_ [fuel H]]; [| |exists fuel; apply (H fuel (le_n _))].
  - intros [n Hr]. apply reach_perm in Hr.
    exact (goal_labels_not_rearranged Hr).
  - intros b [n Hr] Hh. apply reach_perm in Hr.
    assert (Eb : b = goal_labels).
    { apply (nibble_hash_collision_free start_alone goal_labels);
        [reflexivity|sample_cells|sample_cells|left; assumption
        |right; reflexivity|assumption]. }
    subst b. exact (goal_labels_not_rearranged Hr).
Defined.

(** C7 as worded fails: [goal_q] holds a label that [start_q] lacks, yet
    the hash of the first successor is the goal's and the search reports
    success. *)
Lemma C7_counterexample :
  ~ (forall (make_hash : Board -> Z) (Q : PriorityQueue) (B : Build)
            start goal,
       valid_board start -> ~ reachable start goal ->
       exists fuel,
         breadthFirst make_hash fuel start goal = NoSolution /\
         aStar make_hash fuel start goal = NoSolution).
Proof.
  intros H.
  destruct (H nibble_hash list_queue zero_build start_q goal_q)
    as (fuel & Hb & _).
  - split; reflexivity.
  - intros [n Hr]. apply reach_perm in Hr.
    assert (Hq : "q"%char ∈ start_q).
    { rewrite <- Hr. unfold goal_q, board_of. simpl. left. }
    unfold start_q, board_of in Hq. simpl in Hq.
    repeat (apply elem_of_cons in Hq as [Hq|Hq]; [discriminate Hq|]).
    by apply elem_of_nil in Hq.
  - destruct fuel; vm_compute in Hb; discriminate Hb.
Qed.

(** ** No read outside a board from a valid start *)

(** X5. From a valid start board neither searcher ever reads outside a
    board or meets the failed assertion, however many rounds it runs. *)
Theorem X5_never_undefined (make_hash : Board -> Z)
    (Q : PriorityQueue) (QS : PriorityQueueSpec Q) (B : Build) start goal fuel :
  valid_board start ->
  breadthFirst make_hash fuel start goal <> Undefined /\
  aStar make_hash fuel start goal <> Undefined.
Proof.
  intros Hv. split.
  - unfold breadthFirst. simpl.
    destruct (make_hash start =? make_hash goal); [discriminate|].
    apply (bfs_loop_defined make_hash start); [assumption|].
    constructor; constructor.
  - unfold aStar. simpl.
    destruct (make_hash start =? make_hash goal); [discriminate|].
    apply (astar_loop_defined make_hash (QS:=QS) start); [assumption|].
    apply astar_invariant_start.
Qed.

Lemma X5_witness :
  breadthFirst nibble_hash 3 start_main goal_main <> Undefined /\
  aStar nibble_hash (Q:=list_queue) (B:=zero_build) 3 start_main goal_main <> Undefined.
Proof.
  apply (X5_never_undefined nibble_hash list_queue list_queue_spec zero_build
           start_main goal_main 3).
  split; reflexivity.
Defined.

(** X6. From a sixteen-cell start board without the agent, unless the
    start already has the goal's hash, the first round of either search
    tries the move up and swaps with a cell outside the board. *)
Theorem X6_search_without_agent (make_hash : Board -> Z)
    (Q : PriorityQueue) (QS : PriorityQueueSpec Q) (B : Build) start goal fuel :
  length start = 16%nat -> ~ In agent start ->
  make_hash start <> make_hash goal ->
  breadthFirst make_hash (S fuel) start goal = Undefined /\
  aStar make_hash (S fuel) start goal = Undefined.
Proof.
  intros Hl Hn Hh. apply Z.eqb_neq in Hh.
  destruct (next_board_no_agent start Hl Hn) as (H1 & H2 & _).
  split.
  - unfold breadthFirst. simpl getHash. rewrite Hh.
    simpl. unfold bfs_round. simpl. unfold make_next_state. simpl.
    rewrite H1, H2. reflexivity.
  - unfold aStar. simpl getHash. rewrite Hh. simpl. unfold astar_round.
    destruct (pq_pop_singleton (QS:=QS)
                (with_score (new_root make_hash start) goal)) as [rest ->].
    simpl. unfold make_next_state. simpl. rewrite H1, H2. reflexivity.
Qed.

Lemma X6_witness :
  breadthFirst nibble_hash 1 no_agent_board goal_main = Undefined /\
  aStar nibble_hash (Q:=list_queue) (B:=zero_build) 1 no_agent_board goal_main = Undefined.
Proof.
  apply (X6_search_without_agent nibble_hash list_queue list_queue_spec zero_build
           no_agent_board goal_main 0).
  - reflexivity.
  - vm_compute. intuition discriminate.
  - vm_compute. discriminate.
Defined.

(** ** The rebuilt sequence is a way from the start *)

Lemma reconstruct_snoc s :
  reconstruct (Some s)
  = rev (map getState (ancestors s)) ++ [getState s].
Proof. reflexivity. Qed.

Lemma in_tree_legal_path make_hash start s :
  in_tree make_hash start s -> legal_path (reconstruct (Some s)).
Proof.
  induction 1 as [|p m next Hp IH Hm H].
  - apply legal_one.
  - pose proof (make_next_state_child _ _ _ _ H) as (_ & _ & _ & _ & E).
    apply make_next_state_inv in H as (b' & Hb & _ & ->).
    rewrite reconstruct_snoc, E. simpl map. simpl rev. simpl getState.
    rewrite reconstruct_snoc in IH.
    apply legal_snoc; [assumption|]. exists m. split; assumption.
Qed.

(** X7. The sequence rebuilt from a state that either searcher returns is
    a way a player could go: one board more than the state has
    predecessor links, each board one legal move from the board before. *)
Theorem X7_solution_is_legal (make_hash : Board -> Z)
    (Q : PriorityQueue) (QS : PriorityQueueSpec Q) (B : Build) start goal fuel s :
  breadthFirst make_hash fuel start goal = Solution s \/
  aStar make_hash fuel start goal = Solution s ->
  legal_path (reconstruct (Some s)) /\
  length (reconstruct (Some s)) = S (depth s).
Proof.
  intros H.
  assert (Ht : in_tree make_hash start s).
  { destruct H as [H|H].
    - apply breadthFirst_solution in H. tauto.
    - apply aStar_solution with (QS:=QS) in H. tauto. }
  split; [eapply in_tree_legal_path; eassumption|].
  unfold reconstruct. rewrite length_rev, length_map. apply solution_length.
Qed.

Lemma X7_witness :
  exists s,
    breadthFirst nibble_hash 100 start_row goal_row = Solution s /\
    legal_path (reconstruct (Some s)) /\
    length (reconstruct (Some s)) = S (depth s).
Proof.
  eexists. split; [vm_compute; reflexivity|].
  apply (X7_solution_is_legal nibble_hash list_queue list_queue_spec zero_build
           start_row goal_row 100).
  left. vm_compute. reflexivity.
Defined.

(** ** The deque of the breadth-first search *)

Lemma two_levels_round make_hash goalHash d q q' :
  two_levels d q -> bfs_round make_hash goalHash q = inr q' ->
  exists d', two_levels d' q'.
Proof.
  intros Hl Hr. apply bfs_round_inr in Hr as (s & rest & -> & -> & _).
  apply two_levels_back in Hl as (hi & lo & -> & Hhi & Hlo).
  exists (depth s), (rev (children make_hash s moves) ++ hi), lo.
  split; [by rewrite app_assoc|]. split; [|assumption].
  apply Forall_app. split; [|assumption].
  apply Forall_rev, Forall_forall. intros c Hc.
  eapply children_depth; eassumption.
Qed.

Lemma bfs_frontier_two_levels make_hash goalHash n d q q' :
  two_levels d q -> bfs_frontier make_hash n goalHash q = Some q' ->
  exists d', two_levels d' q'.
Proof.
  revert d q. induction n as [|n IH]; simpl; intros d q Hl.
  - intros [= <-]. eauto.
  - destruct (bfs_round make_hash goalHash q) as [v|q''] eqn:E; [discriminate|].
    destruct (two_levels_round _ _ _ _ _ Hl E) as [d' Hl']. eauto.
Qed.

(** X8. The breadth-first search works level by level: after any number
    of rounds the states waiting in the deque lie on at most two
    consecutive depths, and the one at the back, which is expanded next,
    is among the least deep. *)
Theorem X8_level_by_level (make_hash : Board -> Z) start goalHash n search :
  bfs_frontier make_hash n goalHash [new_root make_hash start] = Some search ->
  (exists d, two_levels d search) /\
  (forall parent x, last search = Some parent -> x ∈ search ->
                    (depth parent <= depth x)%nat).
Proof.
  intros H.
  assert (Hl : exists d, two_levels d search).
  { eapply (bfs_frontier_two_levels _ _ _ 0%nat); [|eassumption].
    exists [], [new_root make_hash start].
    split; [reflexivity|]. split; constructor; [reflexivity|constructor]. }
  split; [assumption|]. destruct Hl as [d Hl].
  intros parent x Hp Hx. apply last_Some in Hp as [rest ->].
  eapply two_levels_least; eassumption.
Qed.

Lemma X8_witness :
  exists search,
    bfs_frontier nibble_hash 5 (nibble_hash goal_main)
      [new_root nibble_hash start_main] = Some search /\
    (exists d, two_levels d search) /\
    (forall parent x, last search = Some parent -> x ∈ search ->
                      (depth parent <= depth x)%nat).
Proof.
  eexists. split; [vm_compute; reflexivity|].
  apply (X8_level_by_level nibble_hash start_main (nibble_hash goal_main) 5).
  vm_compute. reflexivity.
Defined.

(** ** The score: where it is defined and where it is not *)

Lemma calc_score_loop_self pre suf ret :
  calc_score_loop (pre ++ suf) (length pre) suf ret = Done ret.
Proof.
  revert pre. induction suf as [|c suf IH]; intros pre; [reflexivity|].
  cbn [calc_score_loop]. unfold score_round, cell_is.
  rewrite list_lookup_middle by reflexivity. rewrite Ascii.eqb_refl.
  specialize (IH (pre ++ [c])). rewrite <- app_assoc in IH. simpl in IH.
  rewrite length_app in IH. simpl in IH.
  replace (length pre + 1)%nat with (S (length pre)) in IH by lia.
  exact IH.
Qed.

(** A round whose goal symbol is found at or after its index adds the
    distance. *)
Lemma score_round_reaches state i c ret :
  cell_is state i c = false -> (i <= find_index c state)%nat ->
  Z.of_nat (find_index c state) < 2 ^ 64 ->
  ret + (Z.of_nat (find_index c state) - Z.of_nat i) < 2 ^ 32 ->
  score_round state i c ret
  = Done (ret + (Z.of_nat (find_index c state) - Z.of_nat i)).
Proof.
  intros Hc Hi Hf Hr. unfold score_round, add_abs, size_t_sub. rewrite Hc.
  rewrite Z.mod_small by lia.
  destruct (Z.ltb_spec (ret + (Z.of_nat (find_index c state) - Z.of_nat i))
              (2 ^ 32)); [reflexivity|lia].
Qed.

(** A round whose goal symbol is found before its index: the difference
    wraps to at least [2^64 - i], and the addition has no defined result. *)
Lemma score_round_falls_short state i c ret :
  cell_is state i c = false -> (find_index c state < i)%nat ->
  Z.of_nat i <= 2 ^ 32 -> 0 <= ret ->
  size_t_sub (Z.of_nat (find_index c state)) (Z.of_nat i)
  = 2 ^ 64 - (Z.of_nat i - Z.of_nat (find_index c state)) /\
  score_round state i c ret = Fault.
Proof.
  intros Hc Hi Hb Hr.
  assert (E : size_t_sub (Z.of_nat (find_index c state)) (Z.of_nat i)
              = 2 ^ 64 - (Z.of_nat i - Z.of_nat (find_index c state))).
  { unfold size_t_sub.
    replace (Z.of_nat (find_index c state) - Z.of_nat i)
      with (2 ^ 64 - (Z.of_nat i - Z.of_nat (find_index c state))
            + (-1) * 2 ^ 64) by lia.
    rewrite Z_mod_plus_full. apply Z.mod_small.
    change (2 ^ 64) with (2 ^ 32 * 2 ^ 32). change (2 ^ 32) with 4294967296 in *.
    lia. }
  split; [exact E|]. unfold score_round, add_abs. rewrite Hc, E.
  destruct (Z.ltb_spec
              (ret + (2 ^ 64 - (Z.of_nat i - Z.of_nat (find_index c state))))
              (2 ^ 32)); [|reflexivity].
  change (2 ^ 64) with (2 ^ 32 * 2 ^ 32) in *.
  change (2 ^ 32) with 4294967296 in *. lia.
Qed.

Lemma score_round_grows state i c ret ret' :
  score_round state i c ret = Done ret' -> ret <= ret'.
Proof.
  unfold score_round, add_abs, size_t_sub.
  destruct (cell_is state i c); [intros [= <-]; lia|].
  pose proof (Z.mod_pos_bound (Z.of_nat (find_index c state) - Z.of_nat i)
                (2 ^ 64) eq_refl).
  destruct (_ <? _); [intros [= <-]; lia|discriminate].
Qed.

Lemma calc_score_loop_no_wrap state goal i ret :
  length state = 16%nat -> 0 <= ret ->
  ret + 16 * Z.of_nat (length goal) < 2 ^ 32 ->
  (forall k c, goal !! k = Some c -> cell_is state (i + k) c = false ->
               (i + k <= find_index c state)%nat) ->
  calc_score_loop state i goal ret
  = Done (ret + index_distance_sum state i goal) /\
  0 <= index_distance_sum state i goal <= 16 * Z.of_nat (length goal).
Proof.
  intros Hl. revert i ret. induction goal as [|c goal IH]; intros i ret Hr Hb H.
  - simpl. rewrite Z.add_0_r. split; [reflexivity|lia].
  - cbn [calc_score_loop index_distance_sum].
    assert (Hstep : score_round state i c ret
              = Done (ret + (if cell_is state i c then 0
                       else Z.abs (Z.of_nat (find_index c state) - Z.of_nat i)))
            /\ 0 <= (if cell_is state i c then 0
                     else Z.abs (Z.of_nat (find_index c state) - Z.of_nat i))
               <= 16).
    { pose proof (find_index_le c state) as Hle. rewrite Hl in Hle.
      destruct (cell_is state i c) eqn:E.
      - unfold score_round. rewrite E, Z.add_0_r. split; [reflexivity|lia].
      - pose proof (H 0%nat c eq_refl) as H0.
        rewrite Nat.add_0_r in H0. specialize (H0 E).
        simpl length in Hb.
        rewrite score_round_reaches; [|assumption|assumption| |];
          change (2 ^ 64) with 18446744073709551616;
          [|lia|lia].
        rewrite Z.abs_eq by lia. split; [reflexivity|lia]. }
    destruct Hstep as [-> Hterm].
    simpl length in Hb.
    destruct (IH (S i) (ret + (if cell_is state i c then 0
                 else Z.abs (Z.of_nat (find_index c state) - Z.of_nat i))))
      as [-> Hsum]; [lia|lia| |simpl length; split; [f_equal|]; lia].
    intros k c' Hk. replace (S i + k)%nat with (i + S k)%nat by lia.
    apply H. exact Hk.
Qed.

Lemma calc_score_loop_falls_short state goal i ret :
  0 <= ret -> Z.of_nat (i + length goal) <= 2 ^ 32 ->
  (exists k, falls_short state i goal k) ->
  calc_score_loop state i goal ret = Fault.
Proof.
  revert i ret. induction goal as [|c goal IH];
    intros i ret Hr Hb (k & c' & Hk & Hc & Hf).
  - discriminate.
  - cbn [calc_score_loop]. simpl length in Hb. destruct k as [|k].
    + injection Hk as ->. rewrite Nat.add_0_r in Hc, Hf.
      destruct (score_round_falls_short state i c' ret) as [_ ->];
        [assumption|assumption|lia|assumption|reflexivity].
    + destruct (score_round state i c ret) as [|ret'] eqn:E; [reflexivity|].
      apply score_round_grows in E. apply IH; [lia|lia|].
      exists k, c'. replace (S i + k)%nat with (i + S k)%nat by lia. auto.
Qed.

Lemma calc_score_loop_fault state goal i ret :
  length state = 16%nat -> 0 <= ret ->
  ret + 16 * Z.of_nat (length goal) < 2 ^ 32 ->
  calc_score_loop state i goal ret = Fault ->
  exists k, falls_short state i goal k.
Proof.
  intros Hl. revert i ret. induction goal as [|c goal IH]; intros i ret Hr Hb.
  - discriminate.
  - cbn [calc_score_loop]. simpl length in Hb.
    pose proof (find_index_le c state) as Hle. rewrite Hl in Hle.
    destruct (cell_is state i c) eqn:Ec.
    + unfold score_round. rewrite Ec. intros H.
      apply IH in H as (k & c' & Hk & Hc & Hf); [|lia|lia].
      exists (S k), c'. replace (i + S k)%nat with (S i + k)%nat by lia. auto.
    + destruct (Nat.le_gt_cases i (find_index c state)) as [Hi|Hi].
      * rewrite score_round_reaches;
          [|assumption|assumption
           |change (2 ^ 64) with 18446744073709551616; lia|lia].
        intros H. apply IH in H as (k & c' & Hk & Hc & Hf); [|lia|lia].
        exists (S k), c'. replace (i + S k)%nat with (S i + k)%nat by lia.
        auto.
      * intros _. exists 0%nat, c. rewrite Nat.add_0_r. auto.
Qed.

Lemma calc_score_reaches s goal :
  length (getState s) = 16%nat -> length goal = 16%nat ->
  (forall i c, goal !! i = Some c -> cell_is (getState s) i c = false ->
               (i <= find_index c (getState s))%nat) ->
  calc_score s goal = Done (index_distance_sum (getState s) 0 goal) /\
  0 <= index_distance_sum (getState s) 0 goal <= 256.
Proof.
  intros Hs Hg H.
  destruct (calc_score_loop_no_wrap (getState s) goal 0 0 Hs) as [E B];
    [lia|rewrite Hg; reflexivity|exact H|].
  unfold calc_score. rewrite E, Hg in *. split; [f_equal|]; lia.
Qed.

(** X9. For sixteen-cell boards, when every goal symbol that differs from
    the cell under it is first found in the state at or after its own
    index, the score is defined and is the sum of the index distances, at
    most 256. *)
Theorem X9_score_without_wrap s goal :
  length (getState s) = 16%nat -> length goal = 16%nat ->
  (forall i c, goal !! i = Some c -> cell_is (getState s) i c = false ->
               (i <= find_index c (getState s))%nat) ->
  calc_score s goal = Done (index_distance_sum (getState s) 0 goal) /\
  0 <= index_distance_sum (getState s) 0 goal <= 256.
Proof. apply calc_score_reaches. Qed.

Lemma X9_witness :
  calc_score (new_root nibble_hash start_column) goal_relabelled
  = Done (index_distance_sum start_column 0 goal_relabelled) /\
  0 <= index_distance_sum start_column 0 goal_relabelled <= 256.
Proof.
  apply (X9_score_without_wrap (new_root nibble_hash start_column)
           goal_relabelled).
  - reflexivity.
  - reflexivity.
  - intros i c Hi Hc.
    do 16 (destruct i as [|i]; [vm_compute in Hi; injection Hi as <-;
      first [discriminate Hc | vm_compute; lia]|]).
    vm_compute in Hi. discriminate Hi.
Defined.

(** X10. A state scored against its own board scores 0, whatever the
    length of the board. *)
Theorem X10_score_of_own_board s : calc_score s (getState s) = Done 0.
Proof. apply (calc_score_loop_self [] (getState s) 0). Qed.

(** ** When a search fails, and when it cannot *)

Section Failure.

Variable make_hash : Board -> Z.
Context {Q : PriorityQueue} {QS : PriorityQueueSpec Q} {B : Build}.
Variable start goal : Board.
Variable goalHash : Z.

Let tree := in_tree make_hash start.

Lemma bfs_loop_no_solution fuel q :
  bfs_invariant make_hash start goalHash q ->
  bfs_loop make_hash fuel goalHash q = NoSolution ->
  forall g, tree g -> getHash g <> goalHash.
Proof.
  revert q. induction fuel as [|fuel IH]; simpl; intros q Hq; [discriminate|].
  destruct (bfs_round make_hash goalHash q) as [v|q'] eqn:E.
  - intros -> g Hg Hh. apply bfs_round_empty in E. subst q.
    destruct Hq as (_ & _ & Hc). destruct (Hc g Hg Hh) as (a & Ha & _).
    by apply elem_of_nil in Ha.
  - apply IH. eapply bfs_invariant_round; eassumption.
Qed.

Lemma astar_covered_start :
  make_hash start <> goalHash ->
  astar_covered make_hash start goalHash
    (pq_push (with_score (new_root make_hash start) goal) pq_empty).
Proof.
  intros Hne g Hg Hh. eexists. split.
  - rewrite pq_elems_push, pq_elems_empty. left.
  - simpl. destruct (in_tree_root_or_below _ _ _ Hg) as [->|H]; [|assumption].
    simpl in Hh. congruence.
Qed.

Lemma astar_covered_round q q' :
  astar_covered make_hash start goalHash q ->
  astar_round make_hash goal goalHash q = inr q' ->
  astar_covered make_hash start goalHash q'.
Proof.
  intros Hc Hr g Hg Hh.
  apply astar_round_inr with (QS:=QS) in Hr
    as (best & rest & _ & Hq & Hq' & Hng).
  destruct (Hc g Hg Hh) as (x & Hx & Hxg).
  rewrite Hq in Hx. apply elem_of_cons in Hx as [->|Hx].
  - destruct (descendant_through_child _ _ _ _ Hg Hxg) as (c & Hc1 & Hc2).
    exists (with_score c goal). split.
    + rewrite Hq'. apply elem_of_app. left.
      apply list_elem_of_In.
      apply (in_map (fun c => with_score c goal)).
      apply list_elem_of_In. assumption.
    + simpl. destruct Hc2 as [->|Hc2]; [|assumption].
      rewrite Forall_forall in Hng. exfalso. eapply Hng; eassumption.
  - exists x. split; [|assumption]. rewrite Hq'. apply elem_of_app. by right.
Qed.

Lemma astar_loop_no_solution fuel (q : pq) :
  astar_covered make_hash start goalHash q ->
  astar_loop make_hash fuel goal goalHash q = NoSolution ->
  forall g, tree g -> getHash g <> goalHash.
Proof.
  revert q. induction fuel as [|fuel IH]; simpl; intros q Hq; [discriminate|].
  destruct (astar_round make_hash goal goalHash q) as [v|q'] eqn:E.
  - intros -> g Hg Hh. apply astar_round_empty with (QS:=QS) in E.
    destruct (Hq g Hg Hh) as (x & Hx & _). rewrite E in Hx.
    by apply elem_of_nil in Hx.
  - apply IH. eapply astar_covered_round; eassumption.
Qed.

End Failure.

Lemma no_solution_no_goal_hash (make_hash : Board -> Z)
    (Q : PriorityQueue) (QS : PriorityQueueSpec Q) (B : Build) start goal fuel :
  breadthFirst make_hash fuel start goal = NoSolution \/
  aStar make_hash fuel start goal = NoSolution ->
  forall g, in_tree make_hash start g -> getHash g <> make_hash goal.
Proof.
  unfold breadthFirst, aStar. simpl.
  destruct (make_hash start =? make_hash goal) eqn:E;
    [intros [H|H]; discriminate H|].
  apply Z.eqb_neq in E. intros [H|H].
  - eapply bfs_loop_no_solution; [|eassumption].
    apply bfs_invariant_start. assumption.
  - eapply astar_loop_no_solution with (QS:=QS); [|eassumption].
    apply astar_covered_start. assumption.
Qed.

(** X11. A search that reports no solution has looked everywhere: no state
    of the tree has the hash of the goal, so the goal is not among the
    boards the tree holds; without collisions of the hash, the goal cannot
    be reached at all. *)
Theorem X11_failure_is_final (make_hash : Board -> Z)
    (Q : PriorityQueue) (QS : PriorityQueueSpec Q) (B : Build) start goal fuel :
  breadthFirst make_hash fuel start goal = NoSolution \/
  aStar make_hash fuel start goal = NoSolution ->
  (forall g, in_tree make_hash start g -> getState g <> goal) /\
  (collision_free make_hash (search_boards start goal) ->
   ~ reachable start goal).
Proof.
  intros H.
  pose proof (no_solution_no_goal_hash make_hash Q QS B start goal fuel H) as Hno.
  assert (Hb : forall g, in_tree make_hash start g -> getState g <> goal).
  { intros g Hg Heq. apply (Hno g Hg).
    rewrite (in_tree_hash _ _ _ Hg), Heq. reflexivity. }
  split; [assumption|]. intros Hcf [n Hr].
  destruct (reach_in_tree make_hash start goal Hcf n goal Hr)
    as (t & Ht & Hg & _).
  exact (Hb t Ht Hg).
Qed.

Lemma X11_witness :
  getState (new_root additive_hash start_column) <> goal_other.
Proof.
  apply (X11_failure_is_final additive_hash list_queue list_queue_spec zero_build
           start_column goal_other 10).
  - left. vm_compute. reflexivity.
  - constructor.
Defined.

Lemma searches_terminate (make_hash : Board -> Z)
    (Q : PriorityQueue) (QS : PriorityQueueSpec Q) (B : Build) start goal :
  valid_board start ->
  exists fuel, forall fuel', (fuel <= fuel')%nat ->
    (breadthFirst make_hash fuel' start goal <> Unfinished /\
     breadthFirst make_hash fuel' start goal <> Undefined) /\
    (aStar make_hash fuel' start goal <> Unfinished /\
     aStar make_hash fuel' start goal <> Undefined).
Proof.
  intros Hv.
  pose proof (in_tree_depth_bound make_hash start) as HD.
  exists (S (weight (2 * length (arrangements start) - 1))).
  intros fuel Hf. unfold breadthFirst, aStar. simpl.
  destruct (make_hash start =? make_hash goal);
    [repeat split; discriminate|].
  split.
  - apply (bfs_loop_ends make_hash start _ Hv HD).
    + constructor; constructor.
    + unfold frontier_weight. cbn [sum_list_with depth new_root]. lia.
  - apply (astar_loop_ends make_hash start _ Hv HD (QS:=QS)).
    + apply astar_invariant_start.
    + unfold frontier_weight. rewrite pq_elems_push, pq_elems_empty.
      cbn [fmap list_fmap fst sum_list_with depth new_root with_score]. lia.
Qed.

(** X12. From a valid start board and with a hash free of collisions
    among the boards of the search, a goal that can be reached is found
    by both searchers once they are given rounds enough, and the state
    returned carries the goal board. *)
Theorem X12_reachable_goal_is_found (make_hash : Board -> Z)
    (Q : PriorityQueue) (QS : PriorityQueueSpec Q) (B : Build) start goal :
  valid_board start ->
  collision_free make_hash (search_boards start goal) ->
  reachable start goal ->
  exists fuel, forall fuel', (fuel <= fuel')%nat ->
    (exists s, breadthFirst make_hash fuel' start goal = Solution s /\
               getState s = goal) /\
    (exists s, aStar make_hash fuel' start goal = Solution s /\
               getState s = goal).
Proof.
  intros Hv Hcf [n Hr].
  destruct (searches_terminate make_hash Q QS B start goal Hv) as [fuel Hend].
  exists fuel. intros fuel' Hf.
  destruct (Hend fuel' Hf) as [[Hb Db] [Ha Da]].
  destruct (reach_in_tree make_hash start goal Hcf n goal Hr)
    as (t & Ht & Hg & _).
  assert (Hth : getHash t = make_hash goal)
    by (rewrite (in_tree_hash _ _ _ Ht), Hg; reflexivity).
  assert (Hgoal : forall s, in_tree make_hash start s ->
                            getHash s = make_hash goal -> getState s = goal).
  { intros s Hs Hh. apply Hcf; [left|right; reflexivity|].
    - apply (in_tree_perm make_hash). assumption.
    - rewrite <- Hh. symmetry. eapply in_tree_hash. eassumption. }
  split.
  - destruct (breadthFirst make_hash fuel' start goal) as [| | |s] eqn:E;
      [congruence|congruence| |].
    + exfalso.
      apply (no_solution_no_goal_hash make_hash Q QS B start goal fuel'
               (or_introl E) t Ht Hth).
    + exists s. split; [reflexivity|].
      apply breadthFirst_solution in E as (Hs & Hh & _). auto.
  - destruct (aStar make_hash fuel' start goal) as [| | |s] eqn:E;
      [congruence|congruence| |].
    + exfalso.
      apply (no_solution_no_goal_hash make_hash Q QS B start goal fuel'
               (or_intror E) t Ht Hth).
    + exists s. split; [reflexivity|].
      apply aStar_solution with (QS:=QS) in E as (Hs & Hh). auto.
Qed.

Lemma X12_witness :
  exists fuel, forall fuel', (fuel <= fuel')%nat ->
    (exists s, breadthFirst nibble_hash fuel' start_main goal_main = Solution s /\
               getState s = goal_main) /\
    (exists s, aStar nibble_hash (Q:=list_queue) (B:=zero_build) fuel' start_main goal_main
               = Solution s /\ getState s = goal_main).
Proof.
  apply (X12_reachable_goal_is_found nibble_hash list_queue list_queue_spec zero_build
           start_main goal_main).
  - split; reflexivity.
  - apply nibble_hash_collision_free; [reflexivity| |]; sample_cells.
  - exists 20%nat.
    apply (reach_run_moves
             [Move.RIGHT; Move.DOWN; Move.RIGHT; Move.UP; Move.UP; Move.LEFT;
              Move.DOWN; Move.DOWN; Move.RIGHT; Move.RIGHT; Move.UP; Move.LEFT;
              Move.DOWN; Move.RIGHT; Move.UP; Move.UP; Move.LEFT; Move.DOWN;
              Move.RIGHT; Move.UP]).
    + repeat constructor.
    + reflexivity.
Defined.

(** ** The score between two arrangements of the same cells *)

Lemma last_difference (l1 l2 : list ascii) :
  length l1 = length l2 -> l1 <> l2 ->
  exists p1 p2 x y t,
    l1 = p1 ++ x :: t /\ l2 = p2 ++ y :: t /\ x <> y /\
    length p1 = length p2.
Proof.
  revert l2. induction l1 as [|x l1 IH] using rev_ind; intros l2 Hl Hne.
  - destruct l2; [congruence|discriminate].
  - destruct l2 as [|y l2 _] using rev_ind.
    + rewrite length_app in Hl. simpl in Hl. lia.
    + rewrite !length_app in Hl. simpl in Hl.
      destruct (ascii_dec x y) as [->|Hxy].
      * destruct (IH l2) as (p1 & p2 & a & b & t & -> & -> & Hab & Hp);
          [lia|congruence|].
        exists p1, p2, a, b, (t ++ [y]).
        rewrite <- !app_assoc. simpl. auto.
      * exists l1, l2, x, y, []. repeat split; [assumption|lia].
Qed.

Lemma find_index_app_l c (l r : list ascii) :
  In c l -> find_index c (l ++ r) = find_index c l.
Proof.
  induction l as [|x l IH]; simpl; [tauto|].
  intros Hin. destruct (Ascii.eqb x c) eqn:E; [reflexivity|].
  apply Ascii.eqb_neq in E. f_equal. apply IH.
  destruct Hin; [congruence|assumption].
Qed.

(** Between two different arrangements of the same cells, some goal symbol
    is first found in the state before its own index. *)
Lemma rearranged_lookup_falls_short (state goal : Board) :
  goal ≡ₚ state -> goal <> state ->
  exists k c, goal !! k = Some c /\ cell_is state k c = false /\
              (find_index c state < k)%nat.
Proof.
  intros Hp Hne.
  destruct (last_difference goal state (Permutation_length Hp) Hne)
    as (g1 & s1 & c & x & t & -> & -> & Hcx & Hlen).
  exists (length g1), c. split; [apply list_lookup_middle; reflexivity|].
  assert (Hin : In c s1).
  { change (g1 ++ c :: t) with (g1 ++ [c] ++ t) in Hp.
    change (s1 ++ x :: t) with (s1 ++ [x] ++ t) in Hp.
    rewrite !app_assoc in Hp. apply Permutation_app_inv_r in Hp.
    assert (Hc : c ∈ s1 ++ [x]).
    { rewrite <- Hp. apply elem_of_app. right. left. }
    apply elem_of_app in Hc as [Hc|Hc]; [apply list_elem_of_In; assumption|].
    apply list_elem_of_singleton in Hc. congruence. }
  split.
  - unfold cell_is. rewrite Hlen.
    rewrite list_lookup_middle by reflexivity.
    apply Ascii.eqb_neq. congruence.
  - rewrite find_index_app_l by assumption. rewrite Hlen.
    apply find_index_In. assumption.
Qed.

(** X13. Between two different sixteen-cell boards that are arrangements
    of the same cells, as a state and the goal are during the search of a
    puzzle that can be solved, some goal symbol is first found in the state
    before its own index: the [size_t] difference wraps and the score has
    no defined result. *)
Theorem X13_no_score_between_arrangements s goal :
  length (getState s) = 16%nat ->
  goal ≡ₚ getState s -> goal <> getState s ->
  (exists i, falls_short (getState s) 0 goal i) /\
  calc_score s goal = Fault.
Proof.
  intros Hl Hp Hne.
  assert (Hs : exists i, falls_short (getState s) 0 goal i).
  { destruct (rearranged_lookup_falls_short _ _ Hp Hne) as (k & c & H).
    exists k, c. exact H. }
  split; [assumption|]. unfold calc_score.
  apply calc_score_loop_falls_short; [lia| |assumption].
  rewrite (Permutation_length Hp), Hl. simpl. lia.
Qed.

Lemma X13_witness :
  (exists i, falls_short start_main 0 goal_main i) /\
  calc_score (new_root nibble_hash start_main) goal_main = Fault.
Proof.
  apply (X13_no_score_between_arrangements
           (new_root nibble_hash start_main) goal_main).
  - reflexivity.
  - apply (reach_perm start_main 20).
    apply (reach_run_moves
             [Move.RIGHT; Move.DOWN; Move.RIGHT; Move.UP; Move.UP; Move.LEFT;
              Move.DOWN; Move.DOWN; Move.RIGHT; Move.RIGHT; Move.UP; Move.LEFT;
              Move.DOWN; Move.RIGHT; Move.UP; Move.UP; Move.LEFT; Move.DOWN;
              Move.RIGHT; Move.UP]); [repeat constructor|reflexivity].
  - discriminate.
Defined.

(** ** The score at the boards of [main] *)

(** C6 at the boards of [main]. The rounds for the goal cells 0 to 3 bring
    the sum to 18. At index 4 the goal's blank differs from the agent in
    the state and is first found at index 1: [indexP - i] is [2^64 - 3],
    not 3, the addition has no defined result and neither has the score.
    The sum of index distances the claim speaks of is 39. *)
Theorem C6_score_undefined h :
  calc_score_loop start_main 0 (take 4 goal_main) 0 = Done 18 /\
  goal_main !! 4%nat = Some " "%char /\
  cell_is start_main 4 " "%char = false /\
  find_index " "%char start_main = 1%nat /\
  size_t_sub 1 4 = 2 ^ 64 - 3 /\
  score_round start_main 4 " "%char 18 = Fault /\
  calc_score (Root h start_main) goal_main = Fault /\
  index_distance_sum start_main 0 goal_main = 39.
Proof. repeat split; reflexivity. Qed.

(** C10 at the start board of [main] and a goal that holds the label ['z']
    at index 2. The label is not on the start board, is looked up at index
    16 and adds 14: after the rounds for the cells 0 to 2 the sum is
    8 + 14. The score is undefined all the same: at index 4 the goal's
    blank is first found at index 1, as for the goal of [main]. *)
Theorem C10_absent_symbol_score h :
  ~ In "z"%char start_main /\
  goal_absent !! 2%nat = Some "z"%char /\
  find_index "z"%char start_main = 16%nat /\
  score_round start_main 2 "z"%char 8 = Done (8 + (16 - 2)) /\
  calc_score_loop start_main 0 (take 3 goal_absent) 0 = Done (8 + (16 - 2)) /\
  falls_short start_main 0 goal_absent 4 /\
  calc_score (Root h start_main) goal_absent = Fault.
Proof.
  split; [vm_compute; intuition discriminate|].
  repeat split; try reflexivity.
  exists " "%char. repeat split. vm_compute. lia.
Qed.

(** ** Where exactly the score is defined *)

(** X20. For sixteen-cell boards the score is undefined exactly when some
    goal symbol that differs from the cell under it is first found in the
    state before its own index; whenever it is defined it is the sum of
    the index distances. *)
Theorem X20_score_defined_exactly s goal :
  length (getState s) = 16%nat -> length goal = 16%nat ->
  (calc_score s goal = Fault <->
   exists i, falls_short (getState s) 0 goal i) /\
  (forall v, calc_score s goal = Done v ->
     v = index_distance_sum (getState s) 0 goal /\ 0 <= v <= 256).
Proof.
  intros Hs Hg.
  assert (Hiff : calc_score s goal = Fault <->
                 exists i, falls_short (getState s) 0 goal i).
  { unfold calc_score. split.
    - apply calc_score_loop_fault; [assumption|lia|rewrite Hg; reflexivity].
    - apply calc_score_loop_falls_short; [lia|rewrite Hg; simpl; lia]. }
  split; [exact Hiff|]. intros v Hv.
  destruct (calc_score_reaches s goal Hs Hg) as [E B].
  - intros i c Hi Hc.
    destruct (Nat.le_gt_cases i (find_index c (getState s))) as [H|H];
      [assumption|].
    assert (Hf : calc_score s goal = Fault).
    { apply Hiff. exists i, c. auto. }
    congruence.
  - rewrite E in Hv. injection Hv as <-. split; [reflexivity|assumption].
Qed.

Lemma X20_witness :
  (calc_score (new_root nibble_hash start_main) goal_main = Fault <->
   exists i, falls_short start_main 0 goal_main i) /\
  (forall v, calc_score (new_root nibble_hash start_main) goal_main = Done v ->
     v = index_distance_sum start_main 0 goal_main /\ 0 <= v <= 256).
Proof.
  apply (X20_score_defined_exactly (new_root nibble_hash start_main) goal_main);
    reflexivity.
Defined.

(** X21. A goal symbol that occurs nowhere on a sixteen-cell state board
    is looked up at index 16, one past the last cell, and its round adds
    16 minus its own index; a goal whose differing symbols are all absent
    from the state has a defined score, the sum of those terms. *)
Theorem X21_absent_symbols_are_scored s goal :
  length (getState s) = 16%nat -> length goal = 16%nat ->
  (forall i c ret, (i < 16)%nat -> ~ In c (getState s) ->
     ret + (16 - Z.of_nat i) < 2 ^ 32 ->
     find_index c (getState s) = 16%nat /\
     score_round (getState s) i c ret = Done (ret + (16 - Z.of_nat i))) /\
  ((forall i c, goal !! i = Some c -> cell_is (getState s) i c = false ->
                ~ In c (getState s)) ->
   calc_score s goal = Done (index_distance_sum (getState s) 0 goal)).
Proof.
  intros Hs Hg. split.
  - intros i c ret Hi Hn Hr.
    pose proof (find_index_absent c (getState s) Hn) as Hf. rewrite Hs in Hf.
    split; [assumption|].
    rewrite score_round_reaches; rewrite ?Hf;
      [reflexivity|apply cell_is_false_absent; assumption|lia
      |reflexivity|assumption].
  - intros H. apply calc_score_reaches; try assumption.
    intros i c Hi Hc. rewrite (find_index_absent c (getState s)); [|eauto].
    rewrite Hs. apply lookup_lt_Some in Hi. lia.
Qed.

Lemma X21_witness :
  (forall i c ret, (i < 16)%nat -> ~ In c start_column ->
     ret + (16 - Z.of_nat i) < 2 ^ 32 ->
     find_index c start_column = 16%nat /\
     score_round start_column i c ret = Done (ret + (16 - Z.of_nat i))) /\
  ((forall i c, goal_labels !! i = Some c ->
                cell_is start_column i c = false -> ~ In c start_column) ->
   calc_score (new_root nibble_hash start_column) goal_labels
   = Done (index_distance_sum start_column 0 goal_labels)).
Proof.
  apply (X21_absent_symbols_are_scored (new_root nibble_hash start_column)
           goal_labels); reflexivity.
Defined.

(** ** What the driver prints *)

Lemma append_empty_r (s : string) : String.append s EmptyString = s.
Proof. induction s as [|c s IH]; simpl; [reflexivity|]. f_equal. exact IH. Qed.

(** X14. A sixteen-cell board is printed as four lines of fifteen
    characters, cell [k] standing at place [15 * (k / 4) + 1 + 3 * (k mod 4)]
    of the text; so two boards that print alike are the same board. *)
Theorem X14_printed_board b :
  length b = 16%nat ->
  String.length (print_state b) = 60%nat /\
  (forall k, (k < 16)%nat ->
     String.get (15 * (k / 4) + 1 + 3 * (k mod 4)) (print_state b) = b !! k) /\
  (forall b2, length b2 = 16%nat -> print_state b = print_state b2 -> b = b2).
Proof.
  intros Hl.
  assert (Hget : forall b', length b' = 16%nat -> forall k, (k < 16)%nat ->
            String.get (15 * (k / 4) + 1 + 3 * (k mod 4)) (print_state b')
            = b' !! k).
  { clear. intros b' Hl' k Hk.
    do 16 (destruct b' as [|? b']; [discriminate Hl'|]).
    destruct b'; [|discriminate Hl'].
    do 16 (destruct k as [|k]; [reflexivity|]). lia. }
  split; [|split].
  - do 16 (destruct b as [|? b]; [discriminate Hl|]).
    destruct b; [reflexivity|discriminate Hl].
  - apply Hget. assumption.
  - intros b2 Hl2 Heq. apply list_eq. intros k.
    destruct (Nat.lt_ge_cases k 16) as [Hk|Hk].
    + rewrite <- (Hget b Hl k Hk), <- (Hget b2 Hl2 k Hk), Heq. reflexivity.
    + rewrite !(proj2 (lookup_ge_None _ _)) by lia. reflexivity.
Qed.

Lemma X14_witness :
  String.length (print_state start_main) = 60%nat /\
  (forall k, (k < 16)%nat ->
     String.get (15 * (k / 4) + 1 + 3 * (k mod 4)) (print_state start_main)
     = start_main !! k) /\
  (forall b2, length b2 = 16%nat ->
     print_state start_main = print_state b2 -> start_main = b2).
Proof.
  apply (X14_printed_board start_main). reflexivity.
Defined.

Lemma copy_literal_spec (s : list ascii) :
  ((length s < 15)%nat /\ copy_literal s = Fault) \/
  ((15 <= length s)%nat /\
   copy_literal s = Done (take 16 (s ++ [Ascii.zero])) /\
   length (take 16 (s ++ [Ascii.zero])) = 16%nat).
Proof.
  unfold copy_literal. cbv zeta.
  destruct (Nat.leb_spec 16 (length (s ++ [Ascii.zero]))) as [H|H];
    rewrite length_app in H; simpl in H.
  - right. split; [lia|]. split; [reflexivity|].
    rewrite length_take, length_app. cbn [length]. lia.
  - left. split; [lia|reflexivity].
Qed.

(** X15. [do_searh] reads sixteen characters of each literal: with a
    literal of fewer than fifteen characters it reads past the end of the
    array. When it comes back with a state, both literals were long
    enough and [print_search] writes the line [Finish!] and then, first of
    all boards, the board of the first sixteen characters of the start
    literal and its terminator; with the null pointer it writes the line
    [Failed]. *)
Theorem X15_driver_output (make_hash : Board -> Z)
    (Q : PriorityQueue) (QS : PriorityQueueSpec Q) (B : Build) fuel start goal :
  ((length start < 15)%nat \/ (length goal < 15)%nat ->
   do_searh make_hash fuel start goal = Undefined) /\
  (forall s, do_searh make_hash fuel start goal = Solution s ->
     (15 <= length start)%nat /\ (15 <= length goal)%nat /\
     exists rest,
       print_search (Some s)
       = String.append "Finish!"
           (String.append endl
              (String.append
                 (String.append
                    (print_state (take 16 (start ++ [Ascii.zero]))) endl)
                 rest))) /\
  print_search None = String.append "Failed" endl.
Proof.
  unfold do_searh.
  destruct (copy_literal_spec start) as [[Hs ->]|(Hs & -> & _)];
    destruct (copy_literal_spec goal) as [[Hg Eg]|(Hg & Eg & _)];
    rewrite ?Eg.
  1-3: split; [reflexivity|split; [discriminate|reflexivity]].
  split; [lia|]. split; [|reflexivity]. intros s H.
  split; [assumption|]. split; [assumption|].
  apply aStar_solution with (QS:=QS) in H as [Ht _].
  pose proof (in_tree_solution_root _ _ _ Ht) as Hr.
  rewrite <- rev_head_last in Hr. unfold print_search.
  destruct (rev (solution s)) as [|r tl]; [discriminate|].
  injection Hr as ->. cbn [map getState new_root].
  destruct tl as [|t tl].
  - exists EmptyString. simpl String.concat. rewrite append_empty_r.
    reflexivity.
  - eexists. cbn [String.concat map]. reflexivity.
Qed.

Lemma X15_witness :
  do_searh nibble_hash (Q:=list_queue) (B:=zero_build) 200
    (board_of "*a") goal_column = Undefined /\
  exists s,
    do_searh nibble_hash (Q:=list_queue) (B:=zero_build) 200
      start_column goal_column = Solution s /\
    exists rest,
      print_search (Some s)
      = String.append "Finish!"
          (String.append endl
             (String.append
                (String.append (print_state start_column) endl) rest)).
Proof.
  split.
  - apply (X15_driver_output nibble_hash list_queue list_queue_spec zero_build
             200 (board_of "*a") goal_column).
    left. simpl. lia.
  - eexists. split; [vm_compute; reflexivity|].
    apply (X15_driver_output nibble_hash list_queue list_queue_spec zero_build
             200 start_column goal_column).
    vm_compute. reflexivity.
Defined.

(** * The N smallest numbers of a stream *)

Section NSmallestFacts.

Import NSmallest.

Variable T : Type.
Variable ltb : T -> T -> bool.
Variable dbl_max : T.

(** [operator<] on the values is a strict weak order. *)
Hypothesis ltb_asym : forall a b, ltb a b = true -> ltb b a = false.
Hypothesis le_trans :
  forall a b c, le T ltb a b -> le T ltb b c -> le T ltb a c.

Let leT := le T ltb.
Let sorted := StronglySorted leT.

Lemma le_refl a : leT a a.
Proof.
  unfold leT, le. destruct (ltb a a) eqn:E; [|reflexivity].
  rewrite <- E at 1. apply ltb_asym. assumption.
Qed.

(** Inserting at the lower bound is inserting before the first value that
    is not smaller. *)
Lemma vector_insert_lower_bound tmp buffer :
  vector_insert T (lower_bound T ltb buffer tmp) tmp buffer
  = match buffer with
    | [] => [tmp]
    | e :: rest =>
        if ltb e tmp
        then e :: vector_insert T (lower_bound T ltb rest tmp) tmp rest
        else tmp :: e :: rest
    end.
Proof.
  destruct buffer as [|e rest]; [reflexivity|].
  simpl. destruct (ltb e tmp); reflexivity.
Qed.

Lemma vector_insert_perm tmp buffer :
  vector_insert T (lower_bound T ltb buffer tmp) tmp buffer ≡ₚ tmp :: buffer.
Proof.
  unfold vector_insert. rewrite <- Permutation_middle, take_drop. reflexivity.
Qed.

Lemma vector_insert_sorted tmp buffer :
  sorted buffer ->
  sorted (vector_insert T (lower_bound T ltb buffer tmp) tmp buffer).
Proof.
  induction 1 as [|e rest Hs IH He]; rewrite vector_insert_lower_bound.
  - repeat constructor.
  - destruct (ltb e tmp) eqn:E.
    + constructor; [assumption|].
      rewrite vector_insert_perm. constructor; [|assumption].
      apply ltb_asym. assumption.
    + constructor; [constructor; assumption|].
      constructor; [exact E|].
      eapply Forall_impl; [eassumption|]. intros x Hx.
      eapply le_trans; [exact E|exact Hx].
Qed.

Lemma list_insert_perm tmp head : list_insert T ltb tmp head ≡ₚ tmp :: head.
Proof.
  induction head as [|c rest IH]; simpl; [reflexivity|].
  destruct (ltb tmp c); [reflexivity|]. rewrite IH. apply perm_swap.
Qed.

Lemma list_insert_sorted tmp head :
  sorted head -> sorted (list_insert T ltb tmp head).
Proof.
  induction 1 as [|c rest Hs IH Hc]; simpl.
  - repeat constructor.
  - destruct (ltb tmp c) eqn:E.
    + constructor; [constructor; assumption|].
      assert (Hle : leT tmp c) by (apply ltb_asym; assumption).
      constructor; [exact Hle|].
      eapply Forall_impl; [eassumption|]. intros x Hx.
      eapply le_trans; [exact Hle|exact Hx].
    + constructor; [assumption|].
      rewrite list_insert_perm. constructor; [exact E|assumption].
Qed.

(** Cutting a sorted list keeps the small end: what the cut leaves behind
    is not greater than what it takes away. *)
Lemma cut_sorted n l :
  sorted l ->
  sorted (take n l) /\
  forall x y, x ∈ take n l -> y ∈ drop n l -> leT x y.
Proof.
  intros Hs. rewrite <- (take_drop n l) in Hs.
  apply StronglySorted_app in Hs as (H1 & H2 & _). split; assumption.
Qed.

Lemma smallest_of_cut n seen tmp l l' :
  smallest_of T ltb n seen l -> l' ≡ₚ tmp :: l -> sorted l' ->
  smallest_of T ltb n (seen ++ [tmp]) (take n l').
Proof.
  intros (Hs & dropped & Hp & Hle & Hfull) Hp' Hs'.
  destruct (cut_sorted n l' Hs') as [Hst Hcut].
  assert (Hlen : length l' = S (length l))
    by (rewrite Hp'; reflexivity).
  split; [assumption|].
  exists (drop n l' ++ dropped). split; [|split].
  - rewrite app_assoc, take_drop, Hp', Hp.
    rewrite (Permutation_app_comm (l ++ dropped) [tmp]). reflexivity.
  - intros x y Hx Hy.
    apply elem_of_app in Hy as [Hy|Hy]; [apply Hcut; assumption|].
    destruct Hfull as [->|Hn]; [by apply elem_of_nil in Hy|].
    destruct (drop n l') as [|d ds] eqn:Ed.
    { apply (f_equal length) in Ed. rewrite length_drop in Ed.
      simpl in Ed. lia. }
    assert (Hd : d ∈ tmp :: l).
    { rewrite <- Hp', <- (take_drop n l'), Ed.
      apply elem_of_app. right. left. }
    assert (Hds : ds = []).
    { apply (f_equal length) in Ed. rewrite length_drop in Ed.
      simpl in Ed. destruct ds; [reflexivity|simpl in Ed; lia]. }
    subst ds.
    apply elem_of_cons in Hd as [->|Hd].
    + apply Hle; [|assumption].
      assert (Hperm : take n l' ≡ₚ l).
      { apply (Permutation_cons_inv (a:=tmp)). rewrite <- Hp'.
        rewrite <- (take_drop n l') at 2. rewrite Ed.
        apply Permutation_cons_append. }
      rewrite <- Hperm. assumption.
    + eapply le_trans; [|apply Hle; eassumption].
      apply Hcut; [assumption|left].
  - destruct (decide (n <= length l')%nat) as [Hge|Hlt].
    + right. rewrite length_take. lia.
    + left. rewrite drop_ge by lia.
      destruct Hfull as [->|Hn]; [reflexivity|lia].
Qed.

Lemma findNSmallest_invariant n input :
  length (findNSmallest T ltb dbl_max input n) = n /\
  smallest_of T ltb n (replicate n dbl_max ++ input)
    (findNSmallest T ltb dbl_max input n).
Proof.
  unfold findNSmallest.
  induction input as [|tmp input [IHl IH]] using rev_ind.
  - simpl. rewrite app_nil_r. split; [apply length_replicate|].
    split.
    + induction n as [|n IHn]; simpl; constructor; [assumption|].
      apply Forall_forall. intros x Hx.
      apply elem_of_replicate in Hx as [-> _]. apply le_refl.
    + exists []. rewrite app_nil_r. repeat split; auto.
      intros x y _ Hy. by apply elem_of_nil in Hy.
  - rewrite fold_left_app. simpl. unfold keep_smallest at 1 3. split.
    + rewrite length_take.
      pose proof (Permutation_length
                    (vector_insert_perm tmp
                       (fold_left (keep_smallest T ltb n) input
                          (replicate n dbl_max)))) as Hl.
      simpl in Hl. lia.
    + rewrite app_assoc.
      apply smallest_of_cut with (l := fold_left (keep_smallest T ltb n) input
                                         (replicate n dbl_max)).
      * assumption.
      * apply vector_insert_perm.
      * apply vector_insert_sorted. apply IH.
Qed.

Lemma kept_list_invariant n input :
  smallest_of T ltb (S n) input (kept_list T ltb input (S n)) /\
  length (kept_list T ltb input (S n)) = (S n `min` length input)%nat.
Proof.
  unfold kept_list.
  induction input as [|tmp input [IH IHl]] using rev_ind.
  - simpl. split; [|reflexivity]. split; [constructor|].
    exists []. repeat split; auto.
    intros x y Hx. by apply elem_of_nil in Hx.
  - rewrite fold_left_app. cbn [fold_left trim]. split.
    + apply smallest_of_cut with
        (l := fold_left (fun head tmp0 => trim T (S n) (list_insert T ltb tmp0 head))
                input []).
      * assumption.
      * apply list_insert_perm.
      * apply list_insert_sorted. apply IH.
    + set (head := fold_left _ input []) in *.
      pose proof (Permutation_length (list_insert_perm tmp head)) as Hl.
      simpl in Hl. rewrite length_take, length_app, Hl, IHl.
      cbn [length]. lia.
Qed.

Lemma store_all_last head o output :
  store_all T head (o :: output)
  = Done (match last head with Some v => v | None => o end :: output).
Proof.
  revert o. induction head as [|v rest IH]; intros o; [reflexivity|].
  cbn [store_all]. rewrite IH, last_cons.
  destruct (last rest); reflexivity.
Qed.

Lemma kept_list_untrimmed input :
  kept_list T ltb input 0 ≡ₚ input /\ sorted (kept_list T ltb input 0).
Proof.
  unfold kept_list.
  induction input as [|tmp input [IHp IHs]] using rev_ind.
  - split; [reflexivity|constructor].
  - rewrite fold_left_app. cbn [fold_left trim]. split.
    + rewrite list_insert_perm, IHp. apply Permutation_cons_append.
    + apply list_insert_sorted. assumption.
Qed.

End NSmallestFacts.

(** X16. [findNSmallest] hands over exactly [n] values in ascending
    order; together with the values it left out they are the [n] copies
    of the largest double it started from and the input, and no value
    left out is smaller than a value handed over. *)
Theorem X16_findNSmallest (T : Type) (ltb : T -> T -> bool) (dbl_max : T)
    input n :
  (forall a b, ltb a b = true -> ltb b a = false) ->
  (forall a b c, NSmallest.le T ltb a b -> NSmallest.le T ltb b c ->
                 NSmallest.le T ltb a c) ->
  let out := NSmallest.findNSmallest T ltb dbl_max input n in
  length out = n /\
  StronglySorted (NSmallest.le T ltb) out /\
  exists dropped,
    replicate n dbl_max ++ input ≡ₚ out ++ dropped /\
    forall x y, x ∈ out -> y ∈ dropped -> NSmallest.le T ltb x y.
Proof.
  intros Hasym Htrans out.
  destruct (findNSmallest_invariant T ltb dbl_max Hasym Htrans n input)
    as (Hl & Hs & dropped & Hp & Hle & _).
  split; [assumption|]. split; [assumption|]. eauto.
Qed.

Lemma X16_witness :
  length (NSmallest.findNSmallest Z Z.ltb 1000 [5; 3; 8; 1; 9; 2] 3) = 3%nat /\
  StronglySorted (NSmallest.le Z Z.ltb)
    (NSmallest.findNSmallest Z Z.ltb 1000 [5; 3; 8; 1; 9; 2] 3) /\
  exists dropped,
    replicate 3 1000 ++ [5; 3; 8; 1; 9; 2]
      ≡ₚ NSmallest.findNSmallest Z Z.ltb 1000 [5; 3; 8; 1; 9; 2] 3 ++ dropped /\
    forall x y,
      x ∈ NSmallest.findNSmallest Z Z.ltb 1000 [5; 3; 8; 1; 9; 2] 3 ->
      y ∈ dropped -> NSmallest.le Z Z.ltb x y.
Proof.
  apply (X16_findNSmallest Z Z.ltb 1000 [5; 3; 8; 1; 9; 2] 3).
  - intros a b. rewrite Z.ltb_lt, Z.ltb_ge. lia.
  - unfold NSmallest.le. intros a b c. rewrite !Z.ltb_ge. lia.
Defined.

(** X17. With [n] at least 1, the list of [findNSmallest2] holds, in
    ascending order, the [n] smallest values of the input, or all of them
    when there are fewer than [n]; but its last loop stores every value
    through the same iterator, so the output only changes in its first
    cell, which ends up with the largest value kept. *)
Theorem X17_findNSmallest2 (T : Type) (ltb : T -> T -> bool) input n o output :
  (forall a b, ltb a b = true -> ltb b a = false) ->
  (forall a b c, NSmallest.le T ltb a b -> NSmallest.le T ltb b c ->
                 NSmallest.le T ltb a c) ->
  let kept := NSmallest.kept_list T ltb input (S n) in
  length kept = (S n `min` length input)%nat /\
  StronglySorted (NSmallest.le T ltb) kept /\
  (exists dropped,
     input ≡ₚ kept ++ dropped /\
     forall x y, x ∈ kept -> y ∈ dropped -> NSmallest.le T ltb x y) /\
  NSmallest.findNSmallest2 T ltb input (S n) (o :: output)
  = Done (match last kept with Some v => v | None => o end :: output).
Proof.
  intros Hasym Htrans kept.
  destruct (kept_list_invariant T ltb Hasym Htrans n input)
    as ((Hs & dropped & Hp & Hle & _) & Hl).
  split; [assumption|]. split; [assumption|]. split; [eauto|].
  apply store_all_last.
Qed.

Lemma X17_witness :
  NSmallest.findNSmallest2 Z Z.ltb [5; 3; 8; 1; 9; 2] 3 [0; 0; 0]
  = Done [3; 0; 0].
Proof.
  apply (X17_findNSmallest2 Z Z.ltb [5; 3; 8; 1; 9; 2] 2 0 [0; 0]).
  - intros a b. rewrite Z.ltb_lt, Z.ltb_ge. lia.
  - unfold NSmallest.le. intros a b c. rewrite !Z.ltb_ge. lia.
Defined.

(** X18. Asked for no value at all, [findNSmallest] hands over nothing,
    while the trimming loop of [findNSmallest2] never runs its body: its
    list keeps every value of the input, in ascending order. *)
Theorem X18_none_asked_for (T : Type) (ltb : T -> T -> bool) (dbl_max : T)
    input :
  (forall a b, ltb a b = true -> ltb b a = false) ->
  (forall a b c, NSmallest.le T ltb a b -> NSmallest.le T ltb b c ->
                 NSmallest.le T ltb a c) ->
  NSmallest.findNSmallest T ltb dbl_max input 0 = [] /\
  NSmallest.kept_list T ltb input 0 ≡ₚ input /\
  StronglySorted (NSmallest.le T ltb) (NSmallest.kept_list T ltb input 0).
Proof.
  intros Hasym Htrans. split.
  - unfold NSmallest.findNSmallest. simpl replicate.
    induction input as [|tmp input IH]; [reflexivity|exact IH].
  - apply kept_list_untrimmed; assumption.
Qed.

Lemma X18_witness :
  NSmallest.findNSmallest Z Z.ltb 1000 [5; 3; 8] 0 = [] /\
  NSmallest.kept_list Z Z.ltb [5; 3; 8] 0 ≡ₚ [5; 3; 8] /\
  StronglySorted (NSmallest.le Z Z.ltb) (NSmallest.kept_list Z Z.ltb [5; 3; 8] 0).
Proof.
  apply (X18_none_asked_for Z Z.ltb 1000 [5; 3; 8]).
  - intros a b. rewrite Z.ltb_lt, Z.ltb_ge. lia.
  - unfold NSmallest.le. intros a b c. rewrite !Z.ltb_ge. lia.
Defined.

(** * Every hash of machine size collides on boards *)

Lemma collision_or_not (f : nat -> nat) v n :
  (exists i, (i <= n)%nat /\ f i = v) \/ (forall i, (i <= n)%nat -> f i <> v).
Proof.
  induction n as [|n [(i & Hi & E)|IH]].
  - destruct (Nat.eq_dec (f 0%nat) v) as [E|E].
    + left. exists 0%nat. split; [lia|assumption].
    + right. intros i Hi. replace i with 0%nat by lia. assumption.
  - left. exists i. split; [lia|assumption].
  - destruct (Nat.eq_dec (f (S n)) v) as [E|E].
    + left. exists (S n). split; [lia|assumption].
    + right. intros i Hi. destruct (Nat.eq_dec i (S n)) as [->|Hne];
        [assumption|apply IH; lia].
Qed.

(** More pigeons than holes. *)
Lemma pigeonhole n (f : nat -> nat) :
  (forall i, (i <= n)%nat -> (f i < n)%nat) ->
  exists i j, (i < j <= n)%nat /\ f i = f j.
Proof.
  revert f. induction n as [|n IH]; intros f Hf.
  - specialize (Hf 0%nat (le_n _)). lia.
  - destruct n as [|n].
    + exists 0%nat, 1%nat. split; [lia|].
      pose proof (Hf 0%nat). pose proof (Hf 1%nat). lia.
    + destruct (collision_or_not f (f (S (S n))) (S n))
        as [(i & Hi & E)|Hno].
      * exists i, (S (S n)). split; [lia|assumption].
      * set (g := fun i => if Nat.eq_dec (f i) (S n) then f (S (S n)) else f i).
        destruct (IH g) as (i & j & Hij & E).
        { intros i Hi. unfold g. destruct (Nat.eq_dec (f i) (S n)) as [Ei|Ei].
          - pose proof (Hf (S (S n)) (le_n _)).
            pose proof (Hno i Hi). lia.
          - pose proof (Hf i). lia. }
        exists i, j. split; [lia|]. unfold g in E.
        destruct (Nat.eq_dec (f i) (S n)) as [Ei|Ei],
                 (Nat.eq_dec (f j) (S n)) as [Ej|Ej]; try congruence.
        -- exfalso. apply (Hno j); [lia|congruence].
        -- exfalso. apply (Hno i); [lia|congruence].
Qed.

Lemma digits_length k z : length (digits k z) = k.
Proof. revert z. induction k as [|k IH]; intros z; simpl; auto. Qed.

Lemma digits_range k z : Forall (fun d => 0 <= d < 32) (digits k z).
Proof.
  revert z. induction k as [|k IH]; intros z; simpl; constructor; [|apply IH].
  apply Z.mod_pos_bound. reflexivity.
Qed.

Lemma undigits_digits k z :
  0 <= z < 32 ^ Z.of_nat k -> undigits (digits k z) = z.
Proof.
  revert z. induction k as [|k IH]; intros z Hz.
  - simpl in *. lia.
  - rewrite Nat2Z.inj_succ, Z.pow_succ_r in Hz by lia.
    cbn [digits undigits fold_right]. fold (undigits (digits k (z / 32))).
    rewrite IH.
    + pose proof (Z.div_mod z 32 ltac:(discriminate)). lia.
    + split; [apply Z.div_pos; lia|].
      apply Z.div_lt_upper_bound; lia.
Qed.

Lemma cell_of_code d : 0 <= d < 32 -> N_of_ascii (cell_of d) = Z.to_N (64 + d).
Proof. intros Hd. unfold cell_of. apply N_ascii_embedding. lia. Qed.

Lemma cells_inj ds1 ds2 :
  Forall (fun d => 0 <= d < 32) ds1 -> Forall (fun d => 0 <= d < 32) ds2 ->
  map cell_of ds1 = map cell_of ds2 -> ds1 = ds2.
Proof.
  intros H1. revert ds2. induction H1 as [|d1 ds1 Hd1 _ IH];
    intros [|d2 ds2] H2 E; try discriminate; [reflexivity|].
  apply Forall_cons in H2 as [Hd2 H2]. simpl in E. injection E as E1 E2.
  f_equal; [|apply IH; assumption].
  apply (f_equal N_of_ascii) in E1.
  rewrite !cell_of_code in E1 by assumption. lia.
Qed.

Lemma numbered_board_inj z1 z2 :
  0 <= z1 < 32 ^ 15 -> 0 <= z2 < 32 ^ 15 ->
  numbered_board z1 = numbered_board z2 -> z1 = z2.
Proof.
  intros H1 H2 E.
  assert (E' : map cell_of (digits 15 z1) = map cell_of (digits 15 z2))
    by (unfold numbered_board in E; congruence).
  clear E. rename E' into E.
  apply cells_inj in E; [|apply digits_range|apply digits_range].
  rewrite <- (undigits_digits 15 z1), <- (undigits_digits 15 z2), E;
    [reflexivity|exact H2|exact H1].
Qed.

Lemma numbered_board_valid z : valid_board (numbered_board z).
Proof.
  split.
  - unfold numbered_board. cbn [length]. rewrite length_map, digits_length.
    reflexivity.
  - unfold numbered_board. cbn [count_occ].
    destruct (ascii_dec agent agent) as [_|Hne]; [|congruence].
    f_equal. apply count_occ_not_In.
    intros (d & Hd & Hin)%in_map_iff.
    pose proof (digits_range 15 z) as Hr. rewrite Forall_forall in Hr.
    apply list_elem_of_In in Hin. specialize (Hr d Hin).
    apply (f_equal N_of_ascii) in Hd. rewrite cell_of_code in Hd by assumption.
    change (N_of_ascii agent) with 42%N in Hd. lia.
Qed.

(** X19. Whatever function of the cells [make_hash] is, if its values fit
    a 64-bit [size_t] there are two different valid boards with the same
    hash; searching from the one for the other, both searchers hand back
    the start state at once, as a solution of no moves. *)
Theorem X19_some_boards_collide (make_hash : Board -> Z) (Q : PriorityQueue)
    (B : Build) :
  (forall b, 0 <= make_hash b < 2 ^ 64) ->
  exists start goal,
    valid_board start /\ valid_board goal /\ start <> goal /\
    make_hash start = make_hash goal /\
    forall fuel,
      breadthFirst make_hash fuel start goal
        = Solution (new_root make_hash start) /\
      aStar make_hash fuel start goal = Solution (new_root make_hash start).
Proof.
  intros Hrange.
  assert (HM : exists M : nat, Z.of_nat M = 2 ^ 64).
  { exists (Z.to_nat (2 ^ 64)). apply Z2Nat.id. lia. }
  destruct HM as [M HM].
  destruct (pigeonhole M
              (fun i => Z.to_nat (make_hash (numbered_board (Z.of_nat i)))))
    as (i & j & Hij & E).
  { intros i Hi. pose proof (Hrange (numbered_board (Z.of_nat i))). lia. }
  pose proof (Hrange (numbered_board (Z.of_nat i))) as Hi.
  pose proof (Hrange (numbered_board (Z.of_nat j))) as Hj.
  assert (Eh : make_hash (numbered_board (Z.of_nat i))
               = make_hash (numbered_board (Z.of_nat j))) by lia.
  exists (numbered_board (Z.of_nat i)), (numbered_board (Z.of_nat j)).
  split; [apply numbered_board_valid|]. split; [apply numbered_board_valid|].
  split.
  - intros Eb. apply numbered_board_inj in Eb; [lia| |].
    + change (32 ^ 15) with (2 ^ 64 * 2048). lia.
    + change (32 ^ 15) with (2 ^ 64 * 2048). lia.
  - split; [assumption|]. intros fuel.
    unfold breadthFirst, aStar. simpl getHash.
    rewrite Eh, Z.eqb_refl. split; reflexivity.
Qed.

Lemma additive_hash_range b : 0 <= additive_hash b < 2 ^ 64.
Proof.
  destruct b as [|c b]; simpl; [lia|].
  apply Z.mod_pos_bound. reflexivity.
Qed.

Lemma X19_witness :
  exists start goal,
    valid_board start /\ valid_board goal /\ start <> goal /\
    additive_hash start = additive_hash goal /\
    forall fuel,
      breadthFirst additive_hash fuel start goal
        = Solution (new_root additive_hash start) /\
      aStar additive_hash (Q:=list_queue) (B:=zero_build) fuel start goal
        = Solution (new_root additive_hash start).
Proof.
  apply (X19_some_boards_collide additive_hash list_queue zero_build).
  exact additive_hash_range.
Defined.
